(** * Option payoffs and Black-Scholes-Merton prices: a shallow embedding
    of [option_payoffs.py].

    The Python module is untyped over its numbers: the same payoff
    functions run on [int], on [float] and on numpy scalars.  The
    embedding follows that:

    - the payoff functions and the break-even scan of [graph_payoffs] are
      written once over a signature of numbers ([Num]), instantiated at
      [Z] (Python's unbounded [int]);
    - the pricing formulas are given their real-number reading in
      [Module BSM] and their IEEE-754 binary64 reading in
      [Module Float64];
    - a second presentation of the payoff functions in store-passing
      style ([Module Store]) makes the allocation of the result arrays
      and the absence of writes to the spot grid explicit. *)

From Stdlib Require Import ZArith String Ascii Bool Lia List.
From Stdlib Require Import Ring_theory Ring ZArithRing.
From Stdlib Require Import Reals Lra SpecFloat Sorted.
Import ListNotations.

(** ** Numbers *)

(** The operations the Python code applies to numbers: the literal [0],
    binary [+], [-], [*], unary [-], the builtin [max] on two arguments
    and [==]; [num_1] is the unit that the ring laws of exact numbers
    speak of. *)
Class Num (A : Type) : Type := {
  num_0 : A;
  num_1 : A;
  num_add : A -> A -> A;
  num_sub : A -> A -> A;
  num_mul : A -> A -> A;
  num_neg : A -> A;
  num_max : A -> A -> A;
  num_eqb : A -> A -> bool
}.

(** Exact numbers: the arithmetic is that of a ring and [==] decides
    equality.  Python's [int] is of this kind. *)
Class ExactNum (A : Type) {NA : Num A} : Prop := {
  num_ring : ring_theory num_0 num_1 num_add num_mul num_sub num_neg (@eq A);
  num_eqb_eq : forall a b : A, num_eqb a b = true <-> a = b
}.

#[export] Instance Num_Z : Num Z := {
  num_0 := 0%Z;
  num_1 := 1%Z;
  num_add := Z.add;
  num_sub := Z.sub;
  num_mul := Z.mul;
  num_neg := Z.opp;
  num_max := Z.max;
  num_eqb := Z.eqb
}.

#[export] Instance ExactNum_Z : ExactNum Z :=
  {| num_ring := Zth; num_eqb_eq := Z.eqb_eq |}.

Declare Scope num_scope.
Delimit Scope num_scope with num.
Infix "+" := num_add : num_scope.
Infix "-" := num_sub : num_scope.
Infix "*" := num_mul : num_scope.
Notation "- x" := (num_neg x) : num_scope.

(** ** Payoff functions at maturity *)

Section Payoffs.
Context {A : Type} `{Num A}.
Local Open Scope num_scope.

(** The spot grid [S] is a one-dimensional array, modelled as a list.
    numpy's arithmetic between an array and a scalar is elementwise.
    The stock functions run on numpy arrays only (a Python list has no
    [-] with a number); on an integer array their arithmetic is that of
    int64, which wraps around, where a list of Python [int]s handed to
    the call, put and bond functions is computed without bound. *)

(** [def Long_Stock(S, buy_price, N): return (S - buy_price) * N, buy_price] *)
Definition Long_Stock (S : list A) (buy_price N : A) : list A * A :=
  (map (fun s => (s - buy_price) * N) S, buy_price).

(** [def Short_Stock(S, buy_price, N): return -(S - buy_price) * N, buy_price] *)
Definition Short_Stock (S : list A) (buy_price N : A) : list A * A :=
  (map (fun s => (- (s - buy_price)) * N) S, buy_price).

(** [def Long_ZCB(S, X): return [X] * len(S)] *)
Definition Long_ZCB (S : list A) (X : A) : list A :=
  repeat X (length S).

(** [def Short_ZCB(S, X): return [-X] * len(S)] *)
Definition Short_ZCB (S : list A) (X : A) : list A :=
  repeat (- X) (length S).

(** [list(map(lambda s: (max(0, s-X) - option_premium) * N, S)), X+option_premium] *)
Definition Long_Call (S : list A) (X N option_premium : A) : list A * A :=
  (map (fun s => (num_max num_0 (s - X) - option_premium) * N) S,
   X + option_premium).

(** [list(map(lambda s: -(max(0, s-X) - option_premium) * N, S)), X+option_premium] *)
Definition Short_Call (S : list A) (X N option_premium : A) : list A * A :=
  (map (fun s => (- (num_max num_0 (s - X) - option_premium)) * N) S,
   X + option_premium).

(** [list(map(lambda s: (max(0, X-s) - option_premium) * N, S)), X-option_premium] *)
Definition Long_Put (S : list A) (X N option_premium : A) : list A * A :=
  (map (fun s => (num_max num_0 (X - s) - option_premium) * N) S,
   X - option_premium).

(** [list(map(lambda s: -(max(0, X-s) - option_premium) * N, S)), X-option_premium] *)
Definition Short_Put (S : list A) (X N option_premium : A) : list A * A :=
  (map (fun s => (- (num_max num_0 (X - s) - option_premium)) * N) S,
   X - option_premium).

(** *** Calls as data

    Python does not type what a function returns.  To speak about "what
    every payoff function returns" the calls are reified: [call G] is a
    call of one of the eight functions with its arguments, the spot grid
    being given as a [G] (the array itself, or its address in
    [Module Store]); [returned] is the shape of the object handed back, a
    bare sequence or a 2-tuple of a sequence and a number. *)

Inductive call (G : Type) : Type :=
| CLong_Stock (S : G) (buy_price N : A)
| CShort_Stock (S : G) (buy_price N : A)
| CLong_ZCB (S : G) (X : A)
| CShort_ZCB (S : G) (X : A)
| CLong_Call (S : G) (X N option_premium : A)
| CShort_Call (S : G) (X N option_premium : A)
| CLong_Put (S : G) (X N option_premium : A)
| CShort_Put (S : G) (X N option_premium : A).

Arguments CLong_Stock {G}.
Arguments CShort_Stock {G}.
Arguments CLong_ZCB {G}.
Arguments CShort_ZCB {G}.
Arguments CLong_Call {G}.
Arguments CShort_Call {G}.
Arguments CLong_Put {G}.
Arguments CShort_Put {G}.

Inductive returned : Type :=
| RSeq (payoff : list A)
| RPair (payoff : list A) (break_even : A).

Definition of_pair (p : list A * A) : returned := RPair (fst p) (snd p).

Definition eval (c : call (list A)) : returned :=
  match c with
  | CLong_Stock S' b N => of_pair (Long_Stock S' b N)
  | CShort_Stock S' b N => of_pair (Short_Stock S' b N)
  | CLong_ZCB S' X => RSeq (Long_ZCB S' X)
  | CShort_ZCB S' X => RSeq (Short_ZCB S' X)
  | CLong_Call S' X N p => of_pair (Long_Call S' X N p)
  | CShort_Call S' X N p => of_pair (Short_Call S' X N p)
  | CLong_Put S' X N p => of_pair (Long_Put S' X N p)
  | CShort_Put S' X N p => of_pair (Short_Put S' X N p)
  end.

(** The spot grid a call was given. *)
Definition grid {G : Type} (c : call G) : G :=
  match c with
  | CLong_Stock S' _ _ | CShort_Stock S' _ _
  | CLong_ZCB S' _ | CShort_ZCB S' _
  | CLong_Call S' _ _ _ | CShort_Call S' _ _ _
  | CLong_Put S' _ _ _ | CShort_Put S' _ _ _ => S'
  end.

(** The same call on another grid. *)
Definition on_grid {G G' : Type} (g : G') (c : call G) : call G' :=
  match c with
  | CLong_Stock _ b N => CLong_Stock g b N
  | CShort_Stock _ b N => CShort_Stock g b N
  | CLong_ZCB _ X => CLong_ZCB g X
  | CShort_ZCB _ X => CShort_ZCB g X
  | CLong_Call _ X N p => CLong_Call g X N p
  | CShort_Call _ X N p => CShort_Call g X N p
  | CLong_Put _ X N p => CLong_Put g X N p
  | CShort_Put _ X N p => CShort_Put g X N p
  end.

Definition is_ZCB {G : Type} (c : call G) : bool :=
  match c with
  | CLong_ZCB _ _ | CShort_ZCB _ _ => true
  | _ => false
  end.

(** The call of the opposite side, with the same arguments. *)
Definition opposite {G : Type} (c : call G) : call G :=
  match c with
  | CLong_Stock S' b N => CShort_Stock S' b N
  | CShort_Stock S' b N => CLong_Stock S' b N
  | CLong_ZCB S' X => CShort_ZCB S' X
  | CShort_ZCB S' X => CLong_ZCB S' X
  | CLong_Call S' X N p => CShort_Call S' X N p
  | CShort_Call S' X N p => CLong_Call S' X N p
  | CLong_Put S' X N p => CShort_Put S' X N p
  | CShort_Put S' X N p => CLong_Put S' X N p
  end.

(** The payoff sequence inside a returned object. *)
Definition payoff_of (r : returned) : list A :=
  match r with
  | RSeq p => p
  | RPair p _ => p
  end.

(** The payoff at one spot, as the body of each function computes it. *)
Definition payoff_at {G : Type} (c : call G) (s : A) : A :=
  match c with
  | CLong_Stock _ b N => (s - b) * N
  | CShort_Stock _ b N => (- (s - b)) * N
  | CLong_ZCB _ X => X
  | CShort_ZCB _ X => - X
  | CLong_Call _ X N p => (num_max num_0 (s - X) - p) * N
  | CShort_Call _ X N p => (- (num_max num_0 (s - X) - p)) * N
  | CLong_Put _ X N p => (num_max num_0 (X - s) - p) * N
  | CShort_Put _ X N p => (- (num_max num_0 (X - s) - p)) * N
  end.

(** Elementwise sum of two sequences (the [+] of two arrays). *)
Definition add_seq (p q : list A) : list A :=
  map (fun xy => fst xy + snd xy) (combine p q).

End Payoffs.

Arguments CLong_Stock {A G}.
Arguments CShort_Stock {A G}.
Arguments CLong_ZCB {A G}.
Arguments CShort_ZCB {A G}.
Arguments CLong_Call {A G}.
Arguments CShort_Call {A G}.
Arguments CLong_Put {A G}.
Arguments CShort_Put {A G}.
Arguments RSeq {A}.
Arguments RPair {A}.

(** ** The payoff functions on a store

    The same eight functions with the objects they touch made explicit.
    Arrays and lists live in a store, by address; a function receives the
    address of [S].  [len], iteration and numpy's arithmetic read their
    operand; [list(map(..))], [[x] * n] and every numpy operator build a
    new object.  [None] is an exception. *)

Module Store.
Section Store.
Context {A : Type} `{Num A}.
Local Open Scope num_scope.

Definition addr : Type := nat.
Definition store : Type := list (list A).
Definition M (T : Type) : Type := store -> option (T * store).

Definition ret {T : Type} (x : T) : M T := fun h => Some (x, h).

Definition bind {T U : Type} (m : M T) (k : T -> M U) : M U :=
  fun h => match m h with
           | Some (x, h') => k x h'
           | None => None
           end.

Local Notation "x <- m ;; k" := (bind m (fun x => k))
  (at level 61, m at next level, right associativity).

(** Reading the object at an address. *)
Definition load (a : addr) : M (list A) :=
  fun h => match nth_error h a with
           | Some v => Some (v, h)
           | None => None
           end.

(** A new object: it takes the next free address. *)
Definition new (v : list A) : M addr :=
  fun h => Some (length h, h ++ [v]).

(** [len(S)] *)
Definition py_len (S : addr) : M nat :=
  v <- load S ;; ret (length v).

(** [[x] * n] *)
Definition py_list_repeat (x : A) (n : nat) : M addr :=
  new (repeat x n).

(** [list(map(f, S))] *)
Definition py_list_map (f : A -> A) (S : addr) : M addr :=
  v <- load S ;; new (map f v).

(** [S - c], [S * c] and [-S] on an array [S] and a scalar [c] *)
Definition np_sub_scalar (S : addr) (c : A) : M addr :=
  v <- load S ;; new (map (fun s => s - c) v).

Definition np_mul_scalar (S : addr) (c : A) : M addr :=
  v <- load S ;; new (map (fun s => s * c) v).

Definition np_neg (S : addr) : M addr :=
  v <- load S ;; new (map (fun s => - s) v).

Definition Long_Stock (S : addr) (buy_price N : A) : M (addr * A) :=
  d <- np_sub_scalar S buy_price ;;
  r <- np_mul_scalar d N ;;
  ret (r, buy_price).

Definition Short_Stock (S : addr) (buy_price N : A) : M (addr * A) :=
  d <- np_sub_scalar S buy_price ;;
  m <- np_neg d ;;
  r <- np_mul_scalar m N ;;
  ret (r, buy_price).

Definition Long_ZCB (S : addr) (X : A) : M addr :=
  n <- py_len S ;; py_list_repeat X n.

Definition Short_ZCB (S : addr) (X : A) : M addr :=
  n <- py_len S ;; py_list_repeat (- X) n.

Definition Long_Call (S : addr) (X N option_premium : A) : M (addr * A) :=
  r <- py_list_map (fun s => (num_max num_0 (s - X) - option_premium) * N) S ;;
  ret (r, X + option_premium).

Definition Short_Call (S : addr) (X N option_premium : A) : M (addr * A) :=
  r <- py_list_map (fun s => (- (num_max num_0 (s - X) - option_premium)) * N) S ;;
  ret (r, X + option_premium).

Definition Long_Put (S : addr) (X N option_premium : A) : M (addr * A) :=
  r <- py_list_map (fun s => (num_max num_0 (X - s) - option_premium) * N) S ;;
  ret (r, X - option_premium).

Definition Short_Put (S : addr) (X N option_premium : A) : M (addr * A) :=
  r <- py_list_map (fun s => (- (num_max num_0 (X - s) - option_premium)) * N) S ;;
  ret (r, X - option_premium).

(** What a call hands back: the address of the payoff sequence, alone or
    in a 2-tuple with the break-even price. *)
Inductive returned_ref : Type :=
| RefSeq (payoff : addr)
| RefPair (payoff : addr) (break_even : A).

Definition payoff_ref (r : returned_ref) : addr :=
  match r with
  | RefSeq a => a
  | RefPair a _ => a
  end.

Definition ref_pair (m : M (addr * A)) : M returned_ref :=
  p <- m ;; ret (RefPair (fst p) (snd p)).

Definition ref_seq (m : M addr) : M returned_ref :=
  a <- m ;; ret (RefSeq a).

Definition exec (c : call (A:=A) addr) : M returned_ref :=
  match c with
  | CLong_Stock S' b N => ref_pair (Long_Stock S' b N)
  | CShort_Stock S' b N => ref_pair (Short_Stock S' b N)
  | CLong_ZCB S' X => ref_seq (Long_ZCB S' X)
  | CShort_ZCB S' X => ref_seq (Short_ZCB S' X)
  | CLong_Call S' X N p => ref_pair (Long_Call S' X N p)
  | CShort_Call S' X N p => ref_pair (Short_Call S' X N p)
  | CLong_Put S' X N p => ref_pair (Long_Put S' X N p)
  | CShort_Put S' X N p => ref_pair (Short_Put S' X N p)
  end.

End Store.
End Store.

(** ** Break-even detection in [graph_payoffs] *)

(** ['Call' in position]: substring test on strings. *)
Fixpoint contains (pat s : string) : bool :=
  prefix pat s ||
  match s with
  | EmptyString => false
  | String _ s' => contains pat s'
  end.

Section Scan.
Context {A : Type} `{Num A}.

(** A pandas Series: values with their index labels, in row order.  In
    [payoff_df] the labels are the spots. *)
Definition series : Type := list (A * A).

(** A DataFrame: one index shared by named columns. *)
Record dataframe : Type := {
  df_index : list A;
  df_columns : list (string * list A)
}.

(** The columns that carry a label; pandas lets a label repeat. *)
Definition columns_named (name : string) (cols : list (string * list A))
  : list (list A) :=
  map snd (filter (fun c => String.eqb (fst c) name) cols).

(** [payoff_df[position]] as the scan uses it, a Series.  With no column
    of that label the indexing raises [KeyError]; with several it gives
    a DataFrame, on which the tests of the scan ([if ... > 1],
    [if ... == 2]) raise [ValueError].  [None] is either exception. *)
Definition column (df : dataframe) (name : string) : option series :=
  match columns_named name (df_columns df) with
  | [v] => Some (combine (df_index df) v)
  | _ => None
  end.

(** [name in payoff_df.columns] *)
Definition has_column (df : dataframe) (name : string) : bool :=
  existsb (fun c => String.eqb (fst c) name) (df_columns df).

Definition is_zero (v : A) : bool := num_eqb v num_0.

(** [col.isin([0]).sum()] *)
Definition count_zeros (col : series) : nat :=
  length (filter (fun r => is_zero (snd r)) col).

(** [col[col == 0].index] (and [col[col.isin([0])].index]) *)
Definition zero_index (col : series) : list A :=
  map fst (filter (fun r => is_zero (snd r)) col).

(** [col.shift(-1)]: every value moves one row up, the last row gets
    NaN ([None]). *)
Definition shift_up (vals : list A) : list (option A) :=
  match vals with
  | [] => []
  | _ :: rest => map Some rest ++ [None]
  end.

(** [.replace(np.nan)] with no replacement value: pandas pads, every
    matched entry takes the last value before it that did not match (and
    stays NaN when there is none). *)
Fixpoint pad (prev : option A) (vals : list (option A)) : list (option A) :=
  match vals with
  | [] => []
  | Some v :: rest => Some v :: pad (Some v) rest
  | None :: rest => prev :: pad prev rest
  end.

(** [col == other], rowwise; nothing equals NaN. *)
Definition eq_rows (vals : list A) (other : list (option A)) : list bool :=
  map (fun p => match snd p with
                | Some w => num_eqb (fst p) w
                | None => false
                end)
      (combine vals other).

(** [col == col.shift(-1).replace(np.nan)] *)
Definition lagged_comparison (col : series) : list (A * bool) :=
  let vals := map snd col in
  combine (map fst col) (eq_rows vals (pad None (shift_up vals))).

(** [lc.where(lc == True).first_valid_index()]: the label of the first
    row that holds [True], [None] when no row does. *)
Fixpoint first_valid_index (lc : list (A * bool)) : option A :=
  match lc with
  | [] => None
  | (l, true) :: _ => Some l
  | (_, false) :: rest => first_valid_index rest
  end.

(** What is shown as a break-even: one label, an index or list of
    labels, or Python's [None]. *)
Inductive shown : Type :=
| One (s : A)
| Many (l : list A)
| Nothing.

(** The calls that draw or report.  [Plot] is [plt.plot(col, label=..)]
    ([synthetic] for the dashed, thick line), [Print] is
    [print(f'{position} BEP: S = {BEP}')], [Scatter] is
    [plt.scatter(x=.., y=0, marker=.., s=100, c=..)]. *)
Inductive event : Type :=
| Plot (label : string) (col : series) (synthetic : bool)
| Print (position : string) (BEP : shown)
| Scatter (x : shown) (marker color : string).

Definition mark (x : shown) : event := Scatter x "o" "dodgerblue".
Definition mark_synthetic (x : shown) : event := Scatter x "v" "tab:red".

Definition is_report (e : event) : bool :=
  match e with
  | Plot _ _ _ => false
  | Print _ _ | Scatter _ _ _ => true
  end.

(** [idx[-1]] and [idx[0]]; [None] is an [IndexError]. *)
Definition last_label (idx : list A) : option A :=
  match rev idx with
  | [] => None
  | l :: _ => Some l
  end.

Definition first_label (idx : list A) : option A :=
  match idx with
  | [] => None
  | l :: _ => Some l
  end.

Definition report_one (position : string) (o : option A) : option (list event) :=
  match o with
  | Some BEP => Some [Print position (One BEP); mark (One BEP)]
  | None => None
  end.

(** The body of the [for position in selected_positions] loop, on the
    column of [position]. *)
Definition scan_column (position : string) (col : series) : option (list event) :=
  if Nat.ltb 1 (count_zeros col) then
    if contains "Call" position then
      report_one position (last_label (zero_index col))
    else if contains "Put" position then
      report_one position (first_label (zero_index col))
    else Some []
  else if Nat.ltb 0 (count_zeros col) then
    match first_label (zero_index col) with
    | Some b => Some [Print position (One b); mark (Many (zero_index col))]
    | None => None
    end
  else Some [].

Definition scan_position (df : dataframe) (position : string) : option (list event) :=
  match column df position with
  | Some col =>
      match scan_column position col with
      | Some evs => Some (Plot position col false :: evs)
      | None => None
      end
  | None => None
  end.

(** The block under [if 'Synthetic Position' in payoff_df.columns], on
    that column. *)
Definition scan_synthetic_column (col : series) : option (list event) :=
  if Nat.eqb (count_zeros col) 2 then
    let BEP_PF_lst := zero_index col in
    Some (Print "Synthetic Position" (Many BEP_PF_lst)
          :: map (fun BEP_PF => mark_synthetic (One BEP_PF)) BEP_PF_lst)
  else if Nat.ltb 1 (count_zeros col) then
    let BEP_PF := match first_valid_index (lagged_comparison col) with
                  | Some l => One l
                  | None => Nothing
                  end in
    Some [Print "Synthetic Position" BEP_PF; mark_synthetic BEP_PF]
  else if Nat.ltb 0 (count_zeros col) then
    match first_label (zero_index col) with
    | Some b => Some [Print "Synthetic Position" (One b);
                      mark_synthetic (Many (zero_index col))]
    | None => None
    end
  else Some [].

Definition scan_synthetic (df : dataframe) : option (list event) :=
  if has_column df "Synthetic Position" then
    match column df "Synthetic Position" with
    | Some col =>
        match scan_synthetic_column col with
        | Some evs => Some (Plot "Synthetic Position" col true :: evs)
        | None => None
        end
    | None => None
    end
  else Some [].

Fixpoint scan_positions (df : dataframe) (selected_positions : list string)
  : option (list event) :=
  match selected_positions with
  | [] => Some []
  | position :: rest =>
      match scan_position df position with
      | Some evs =>
          match scan_positions df rest with
          | Some evs' => Some (evs ++ evs')
          | None => None
          end
      | None => None
      end
  end.

(** [graph_payoffs] up to the end of the synthetic block: the calls it
    makes that draw a curve or report a break-even, in order, or [None]
    when an exception ends it.  The statements that follow in the source
    only set axis limits, spines, labels and the legend. *)
Definition graph_payoffs (selected_positions : list string) (S : list A)
  (payoff_df : dataframe) : option (list event) :=
  match scan_positions payoff_df selected_positions with
  | Some evs =>
      match scan_synthetic payoff_df with
      | Some evs' => Some (evs ++ evs')
      | None => None
      end
  | None => None
  end.

End Scan.

Arguments One {A}.
Arguments Many {A}.
Arguments Nothing {A}.
Arguments Plot {A}.
Arguments Print {A}.
Arguments Scatter {A}.

(** ** Option valuation before expiration: the real-number reading

    [np.log], [np.sqrt], [np.exp] and [scipy.stats.norm.cdf] are read as
    the real functions they approximate; rounding is not part of this
    reading. *)

Module BSM.
Local Open Scope R_scope.

(** Density of the standard normal distribution. *)
Definition norm_pdf (t : R) : R := exp (- (t * t) / 2) / sqrt (2 * PI).

Lemma norm_pdf_continuous : continuity norm_pdf.
Proof. unfold norm_pdf. reg. Qed.

Definition norm_pdf_integrable (a b : R) : Riemann_integrable norm_pdf a b :=
  match Rle_dec a b with
  | left h => continuity_implies_RiemannInt h (fun x _ => norm_pdf_continuous x)
  | right h =>
      RiemannInt_P1
        (continuity_implies_RiemannInt (Rlt_le _ _ (Rnot_le_lt _ _ h))
           (fun x _ => norm_pdf_continuous x))
  end.

(** The integral of the density from [a] to [b]. *)
Definition norm_mass (a b : R) : R := RiemannInt (norm_pdf_integrable a b).

(** [norm.cdf]: half of the mass lies below [0]. *)
Definition norm_cdf (x : R) : R := 1 / 2 + norm_mass 0 x.

(** [(np.log(S / X) + (r + (stdev ** 2) / 2) * T) / (stdev * np.sqrt(T))] *)
Definition d1 (S X r stdev T : R) : R :=
  (ln (S / X) + (r + (stdev ^ 2) / 2) * T) / (stdev * sqrt T).

(** [(np.log(S / X) + (r - (stdev ** 2) / 2) * T) / (stdev * np.sqrt(T))] *)
Definition d2 (S X r stdev T : R) : R :=
  (ln (S / X) + (r - (stdev ^ 2) / 2) * T) / (stdev * sqrt T).

(** [(S * norm.cdf(d1)) - (X * np.exp(-r * T) * norm.cdf(d2))] *)
Definition BSM_Call (S X r T d1 d2 : R) : R :=
  (S * norm_cdf d1) - (X * exp (- r * T) * norm_cdf d2).

(** [(X * np.exp(-r * T) * norm.cdf(-d2)) - (S * norm.cdf(-d1))] *)
Definition BSM_Put (S X r T d1 d2 : R) : R :=
  (X * exp (- r * T) * norm_cdf (- d2)) - (S * norm_cdf (- d1)).

End BSM.

(** ** Option valuation before expiration: the binary64 reading

    Python's [float] and numpy's [float64] are IEEE-754 binary64; the
    operators [+ - * /] and [np.sqrt] are the correctly rounded
    operations of [SpecFloat].  [np.log] and the power operator [**] are
    library routines, taken here as any functions on floats.  No
    operation raises in this reading, which is that of numpy values;
    [Module PyFloat] below has the exceptions of Python's own floats. *)

Module Float64.

Definition float64 : Type := spec_float.

Definition prec : Z := 53.
Definition emax : Z := 1024.

Definition fadd : float64 -> float64 -> float64 := SFadd prec emax.
Definition fsub : float64 -> float64 -> float64 := SFsub prec emax.
Definition fmul : float64 -> float64 -> float64 := SFmul prec emax.
Definition fdiv : float64 -> float64 -> float64 := SFdiv prec emax.
Definition np_sqrt : float64 -> float64 := SFsqrt prec emax.

(** An integer as a float, as Python converts an [int] operand. *)
Definition of_int (z : Z) : float64 := binary_normalize prec emax z 0 false.

(** [x > 0] and [x == 0] *)
Definition is_positive (x : float64) : bool := SFltb (of_int 0) x.
Definition is_zero (x : float64) : bool := SFeqb x (of_int 0).

(** A finite number: neither NaN nor an infinity. *)
Definition is_finite (x : float64) : bool :=
  match x with
  | S754_zero _ | S754_finite _ _ _ => true
  | S754_infinity _ | S754_nan => false
  end.

(** A zero of either sign, or NaN. *)
Definition zero_or_nan (x : float64) : bool :=
  match x with
  | S754_zero _ | S754_nan => true
  | _ => false
  end.

Section Pricing.
Variable np_log : float64 -> float64.
Variable power : float64 -> float64 -> float64.

Definition d1 (S X r stdev T : float64) : float64 :=
  fdiv (fadd (np_log (fdiv S X))
             (fmul (fadd r (fdiv (power stdev (of_int 2)) (of_int 2))) T))
       (fmul stdev (np_sqrt T)).

Definition d2 (S X r stdev T : float64) : float64 :=
  fdiv (fadd (np_log (fdiv S X))
             (fmul (fsub r (fdiv (power stdev (of_int 2)) (of_int 2))) T))
       (fmul stdev (np_sqrt T)).

End Pricing.
End Float64.

(** ** Option valuation before expiration: Python's own floats

    The same two functions when the five arguments are Python [float]s.
    The operators between two Python floats are Python's: [/] raises
    [ZeroDivisionError] on a zero divisor and [**] raises
    [OverflowError] where the power is out of range; [+], [-] and [*]
    do not raise.  [np.log] and [np.sqrt] return numpy scalars, and an
    operator with a numpy operand is numpy's, which does not raise.
    [None] is an exception. *)

Module PyFloat.
Import Float64.

(** [x / y] on two Python floats. *)
Definition truediv (x y : float64) : option float64 :=
  if Float64.is_zero y then None else Some (fdiv x y).

Section Pricing.
Variable np_log : float64 -> float64.
Variable power : float64 -> float64 -> option float64.

Definition d1 (S X r stdev T : float64) : option float64 :=
  match truediv S X with
  | None => None
  | Some q =>
      match power stdev (of_int 2) with
      | None => None
      | Some sq =>
          Some (fdiv (fadd (np_log q)
                           (fmul (fadd r (fdiv sq (of_int 2))) T))
                     (fmul stdev (np_sqrt T)))
      end
  end.

Definition d2 (S X r stdev T : float64) : option float64 :=
  match truediv S X with
  | None => None
  | Some q =>
      match power stdev (of_int 2) with
      | None => None
      | Some sq =>
          Some (fdiv (fadd (np_log q)
                           (fmul (fsub r (fdiv sq (of_int 2))) T))
                     (fmul stdev (np_sqrt T)))
      end
  end.

End Pricing.

(** A power routine that raises as Python's does: on a finite base whose
    square is out of range. *)
Definition square_or_raise (x _ : float64) : option float64 :=
  if is_finite x && negb (is_finite (fmul x x)) then None
  else Some (fmul x x).

End PyFloat.

(** ** Axis limits in [graph_payoffs]

    The statements after the synthetic block fix the scale:
    [ax.set_xlim(0, max(S))], [yscale = payoff_df.max(axis=0).max()],
    [ax.set_ylim(-yscale, yscale)]. *)

Section Limits.
Context {A : Type} `{Num A}.

(** [max(S)] on a sequence: the running maximum from the first entry on;
    [None] is the [ValueError] on an empty sequence. *)
Definition py_max (S : list A) : option A :=
  match S with
  | [] => None
  | s :: rest => Some (fold_left num_max rest s)
  end.

(** [payoff_df.max(axis=0)]: the maximum of each column, NaN ([None])
    for a column without rows. *)
Definition column_maxima (df : dataframe) : list (option A) :=
  map (fun c => py_max (map snd (combine (df_index df) (snd c))))
      (df_columns df).

(** [Series.max()]: the largest entry that is not NaN, NaN when there is
    none. *)
Fixpoint nan_max (l : list (option A)) : option A :=
  match l with
  | [] => None
  | None :: rest => nan_max rest
  | Some v :: rest =>
      match nan_max rest with
      | Some w => Some (num_max v w)
      | None => Some v
      end
  end.

(** The limits handed to [set_xlim] and to [set_ylim]; the outer [None]
    is the exception of [max(S)], the inner one a NaN [yscale]. *)
Definition graph_limits (S : list A) (payoff_df : dataframe)
  : option ((A * A) * option (A * A)) :=
  match py_max S with
  | None => None
  | Some xmax =>
      Some ((num_0, xmax),
            match nan_max (column_maxima payoff_df) with
            | Some yscale => Some (num_neg yscale, yscale)
            | None => None
            end)
  end.

(** The label of a curve drawn by [plt.plot]. *)
Definition plot_label (e : event (A:=A)) : option string :=
  match e with
  | Plot label _ _ => Some label
  | _ => None
  end.

Fixpoint plot_labels (evs : list (event (A:=A))) : list string :=
  match evs with
  | [] => []
  | e :: rest =>
      match plot_label e with
      | Some l => l :: plot_labels rest
      | None => plot_labels rest
      end
  end.

(** The spots a break-even shows, and the spots an event prints or
    marks. *)
Definition shown_spots (x : shown (A:=A)) : list A :=
  match x with
  | One s => [s]
  | Many l => l
  | Nothing => []
  end.

Definition event_spots (e : event (A:=A)) : list A :=
  match e with
  | Plot _ _ _ => []
  | Print _ b => shown_spots b
  | Scatter x _ _ => shown_spots x
  end.

End Limits.

(** The grid of the worked example of the specification. *)
Definition example_S : list Z := [80; 90; 100; 110; 120]%Z.

(** A table in which two columns carry the label ['Long Call']. *)
Definition repeated_label_df : dataframe (A:=Z) :=
  {| df_index := [90; 100; 110]%Z;
     df_columns := [("Long Call"%string, [-5; -5; 5]%Z);
                    ("Long Call"%string, [-10; -10; 0]%Z)] |}.

(** * Properties *)

(** ** Payoff functions *)

Section PayoffFacts.
Context {A : Type} {NA : Num A} {EA : ExactNum A}.
Local Open Scope num_scope.

Add Ring num_Ring : num_ring.

Lemma long_short_cancel (a N : A) : a * N + (- a) * N = num_0.
Proof. ring. Qed.

Lemma par_cancel (X : A) : X + (- X) = num_0.
Proof. ring. Qed.

Lemma add_seq_map (f g : A -> A) (S : list A) :
  add_seq (map f S) (map g S) = map (fun s => f s + g s) S.
Proof.
  unfold add_seq. induction S as [|s S IH]; simpl.
  - reflexivity.
  - f_equal. exact IH.
Qed.

Lemma map_const (f : A -> A) (z : A) (S : list A) :
  (forall s, f s = z) -> map f S = repeat z (length S).
Proof.
  intros Hf. induction S as [|s S IH]; simpl.
  - reflexivity.
  - rewrite Hf, IH. reflexivity.
Qed.

(** Every payoff sequence is the per-spot payoff mapped over the grid. *)
Lemma payoff_elementwise (c : call (list A)) :
  payoff_of (eval c) = map (payoff_at c) (grid c).
Proof.
  destruct c; simpl; try reflexivity.
  - unfold Long_ZCB. symmetry. apply map_const. reflexivity.
  - unfold Short_ZCB. symmetry. apply map_const. reflexivity.
Qed.

Lemma grid_opposite {G : Type} (c : call (A:=A) G) : grid (opposite c) = grid c.
Proof. destruct c; reflexivity. Qed.

Lemma payoff_at_opposite {G : Type} (c : call (A:=A) G) (s : A) :
  payoff_at c s + payoff_at (opposite c) s = num_0.
Proof. destruct c; simpl; ring. Qed.

(** C2: the break-even price returned by [Long_Call] is [X + premium] and
    the one returned by [Long_Put] is [X - premium], for every grid,
    strike, quantity and premium. *)
Theorem break_even_long_call_put (S : list A) (X N premium : A) :
  snd (Long_Call S X N premium) = X + premium /\
  snd (Long_Put S X N premium) = X - premium.
Proof. split; reflexivity. Qed.

(** C5, as the code has it: the stock, call and put functions return a
    pair of the payoff sequence and the break-even price; [Long_ZCB] and
    [Short_ZCB] return the payoff sequence alone, of the length of [S]
    and constantly [X], respectively [-X]. *)
Theorem payoff_functions_return (c : call (list A)) :
  match c with
  | CLong_ZCB S' X => eval c = RSeq (repeat X (length S'))
  | CShort_ZCB S' X => eval c = RSeq (repeat (- X) (length S'))
  | _ => exists break_even,
           eval c = RPair (map (payoff_at c) (grid c)) break_even
  end.
Proof.
  destruct c; simpl; try reflexivity; eexists; reflexivity.
Qed.

(** C7: for each instrument (stock, bond, call, put) and every grid and
    parameters, the payoff sequence of one side plus the payoff sequence
    of the opposite side is zero at every index, in exact arithmetic. *)
Theorem long_short_symmetry (c : call (list A)) :
  add_seq (payoff_of (eval c)) (payoff_of (eval (opposite c)))
  = repeat num_0 (length (grid c)).
Proof.
  rewrite !payoff_elementwise, grid_opposite, add_seq_map.
  apply map_const. intros s. apply payoff_at_opposite.
Qed.

End PayoffFacts.

Section PayoffExamples.
Local Open Scope Z_scope.

(** C5 as stated fails: on a grid of three spots [Long_ZCB] returns a
    list of three numbers, not a pair of a sequence and a price. *)
Lemma zcb_returns_no_pair :
  ~ (forall c : call (list Z),
       exists payoff break_even, eval c = RPair payoff break_even).
Proof.
  intros H. destruct (H (CLong_ZCB [80; 90; 100] 100)) as (p & b & E).
  vm_compute in E. discriminate E.
Qed.

(** C6: for [S = [80, 90, 100, 110, 120]], [X = 100], [N = 1] and
    [premium = 5], [Long_Call] returns the payoffs [[-5, -5, -5, 5, 15]]
    and the break-even price [105]. *)
Theorem long_call_example :
  Long_Call [80; 90; 100; 110; 120] 100 1 5 = ([-5; -5; -5; 5; 15], 105).
Proof. reflexivity. Qed.

(** The symmetry on the call of the worked example. *)
Lemma long_short_symmetry_witness :
  add_seq (fst (Long_Call [80; 90; 100; 110; 120] 100 1 5))
          (fst (Short_Call [80; 90; 100; 110; 120] 100 1 5))
  = [0; 0; 0; 0; 0].
Proof.
  exact (long_short_symmetry (CLong_Call [80; 90; 100; 110; 120] 100 1 5)).
Defined.

End PayoffExamples.

(** ** The payoff functions leave the store as they found it *)

Section StoreFacts.
Context {A : Type} {NA : Num A}.

Lemma load_present (h : Store.store) (a : Store.addr) (v : list A) :
  nth_error h a = Some v -> Store.load a h = Some (v, h).
Proof. intros E. unfold Store.load. rewrite E. reflexivity. Qed.

Lemma nth_error_new (h : Store.store (A:=A)) (v : list A) :
  nth_error (h ++ [v]) (length h) = Some v.
Proof.
  rewrite nth_error_app2 by lia. rewrite Nat.sub_diag. reflexivity.
Qed.

Lemma nth_error_kept (h t : Store.store (A:=A)) (a : Store.addr) (v : list A) :
  nth_error h a = Some v -> nth_error (h ++ t) a = Some v.
Proof.
  intros E. rewrite nth_error_app1; [exact E|].
  apply nth_error_Some. rewrite E. discriminate.
Qed.

(** A primitive that reads [a] and builds [f] of it. *)
Lemma load_new (f : list A -> list A) (h : Store.store) (a : Store.addr) (v : list A) :
  nth_error h a = Some v ->
  Store.bind (Store.load a) (fun w => Store.new (f w)) h
  = Some (length h, h ++ [f v]).
Proof.
  intros E. unfold Store.bind. rewrite (load_present _ _ _ E). reflexivity.
Qed.

Ltac store_step :=
  unfold Store.exec, Store.ref_pair, Store.ref_seq,
    Store.Long_Stock, Store.Short_Stock, Store.Long_ZCB, Store.Short_ZCB,
    Store.Long_Call, Store.Short_Call, Store.Long_Put, Store.Short_Put,
    Store.np_sub_scalar, Store.np_mul_scalar, Store.np_neg,
    Store.py_len, Store.py_list_repeat, Store.py_list_map,
    Store.bind, Store.load, Store.new, Store.ret.

(** What a call does to the store: it appends its temporaries and, last,
    the payoff sequence, whose address it returns. *)
Lemma exec_appends (c : call nat) (h : Store.store) (S : list A) :
  nth_error h (grid c) = Some S ->
  exists r t,
    Store.exec c h = Some (r, h ++ t ++ [map (payoff_at c) S]) /\
    Store.payoff_ref r = length (h ++ t).
Proof.
  intros E. destruct c; simpl in E; store_step; rewrite E.
  - exists (Store.RefPair (length h + 1) buy_price),
      [map (fun s => (s - buy_price)%num) S].
    rewrite nth_error_new. simpl.
    rewrite map_map, <- app_assoc, !length_app. split; reflexivity.
  - exists (Store.RefPair (length h + 2) buy_price),
      [map (fun s => (s - buy_price)%num) S;
       map (fun s => (- (s - buy_price))%num) S].
    rewrite nth_error_new. rewrite nth_error_new. simpl.
    rewrite !map_map, <- !app_assoc, !length_app. simpl.
    split; [reflexivity | lia].
  - exists (Store.RefSeq (length h)), [].
    rewrite (map_const (payoff_at (CLong_ZCB S0 X)) X S (fun _ => eq_refl)).
    simpl. rewrite app_nil_r. split; reflexivity.
  - exists (Store.RefSeq (length h)), [].
    rewrite (map_const (payoff_at (CShort_ZCB S0 X)) (- X)%num S (fun _ => eq_refl)).
    simpl. rewrite app_nil_r. split; reflexivity.
  - exists (Store.RefPair (length h) (X + option_premium)%num), []. simpl.
    rewrite app_nil_r. split; reflexivity.
  - exists (Store.RefPair (length h) (X + option_premium)%num), []. simpl.
    rewrite app_nil_r. split; reflexivity.
  - exists (Store.RefPair (length h) (X - option_premium)%num), []. simpl.
    rewrite app_nil_r. split; reflexivity.
  - exists (Store.RefPair (length h) (X - option_premium)%num), []. simpl.
    rewrite app_nil_r. split; reflexivity.
Qed.

End StoreFacts.

Section StoreFrame.
Context {A : Type} {NA : Num A}.

Lemma payoff_on_grid {G : Type} (S : list A) (c : call G) :
  payoff_of (eval (on_grid S c)) = map (payoff_at c) S.
Proof.
  rewrite payoff_elementwise. destruct c; reflexivity.
Qed.

(** C9: a payoff function called on the address of a grid [S] returns
    normally; every object of the store, [S] among them, is afterwards
    what it was before; the payoff sequence is a new object, of the
    length of [S], whose entry at each index is the payoff at the spot
    of [S] at that index. *)
Theorem payoff_functions_frame (c : call nat) (h : Store.store) (S : list A) :
  nth_error h (grid c) = Some S ->
  exists r h',
    Store.exec c h = Some (r, h') /\
    (forall a v, nth_error h a = Some v -> nth_error h' a = Some v) /\
    nth_error h' (grid c) = Some S /\
    nth_error h (Store.payoff_ref r) = None /\
    nth_error h' (Store.payoff_ref r) = Some (payoff_of (eval (on_grid S c))) /\
    length (payoff_of (eval (on_grid S c))) = length S /\
    (forall i s, nth_error S i = Some s ->
       nth_error (payoff_of (eval (on_grid S c))) i = Some (payoff_at c s)).
Proof.
  intros E. destruct (exec_appends c h S E) as (r & t & Hrun & Hr).
  exists r, (h ++ t ++ [map (payoff_at c) S]).
  rewrite payoff_on_grid.
  repeat split.
  - exact Hrun.
  - intros a v Ha. apply nth_error_kept. exact Ha.
  - apply nth_error_kept. exact E.
  - apply nth_error_None. rewrite Hr, length_app. lia.
  - rewrite Hr, app_assoc. apply nth_error_new.
  - apply length_map.
  - intros i s Hi. rewrite nth_error_map, Hi. reflexivity.
Qed.

End StoreFrame.

Section StoreExamples.
Local Open Scope Z_scope.

(** A store holding the grid of the worked example at address 0, and a
    call of [Long_Call] on it. *)
Lemma payoff_functions_frame_witness :
  exists r h',
    Store.exec (CLong_Call 0%nat 100 1 5) [[80; 90; 100; 110; 120]] = Some (r, h') /\
    (forall a v, nth_error [[80; 90; 100; 110; 120]] a = Some v ->
                 nth_error h' a = Some v) /\
    nth_error h' 0%nat = Some [80; 90; 100; 110; 120] /\
    nth_error [[80; 90; 100; 110; 120]] (Store.payoff_ref r) = None /\
    nth_error h' (Store.payoff_ref r) = Some [-5; -5; -5; 5; 15] /\
    length [-5; -5; -5; 5; 15] = length [80; 90; 100; 110; 120] /\
    (forall i s, nth_error [80; 90; 100; 110; 120] i = Some s ->
       nth_error [-5; -5; -5; 5; 15] i = Some ((Z.max 0 (s - 100) - 5) * 1)).
Proof.
  exact (payoff_functions_frame (CLong_Call 0%nat 100 1 5)
           [[80; 90; 100; 110; 120]] [80; 90; 100; 110; 120] eq_refl).
Defined.

End StoreExamples.

(** ** Break-even detection *)

Section ScanFacts.
Context {A : Type} {NA : Num A}.

Lemma count_zeros_app (p q : series) :
  count_zeros (p ++ q) = count_zeros p + count_zeros q.
Proof. unfold count_zeros. rewrite filter_app, length_app. reflexivity. Qed.

Lemma zero_index_app (p q : series) :
  zero_index (p ++ q) = zero_index p ++ zero_index q.
Proof. unfold zero_index. rewrite filter_app, map_app. reflexivity. Qed.

Lemma count_zeros_cons_zero (s v : A) (q : series) :
  is_zero v = true -> count_zeros ((s, v) :: q) = S (count_zeros q).
Proof. intros Hv. unfold count_zeros. simpl. rewrite Hv. reflexivity. Qed.

Lemma zero_index_cons_zero (s v : A) (q : series) :
  is_zero v = true -> zero_index ((s, v) :: q) = s :: zero_index q.
Proof. intros Hv. unfold zero_index. simpl. rewrite Hv. reflexivity. Qed.

Lemma zero_index_length (col : series) :
  length (zero_index col) = count_zeros col.
Proof. unfold zero_index, count_zeros. apply length_map. Qed.

Lemma zero_index_none (col : series) :
  count_zeros col = 0 -> zero_index col = [].
Proof.
  intros E. apply length_zero_iff_nil. rewrite zero_index_length. exact E.
Qed.

(** A column cut at one of its zero rows. *)
Lemma count_zeros_cut (pre post : series) (s v : A) :
  is_zero v = true ->
  count_zeros (pre ++ (s, v) :: post) = count_zeros pre + S (count_zeros post).
Proof.
  intros Hv. rewrite count_zeros_app, (count_zeros_cons_zero _ _ _ Hv).
  reflexivity.
Qed.

Lemma zero_index_cut (pre post : series) (s v : A) :
  is_zero v = true ->
  zero_index (pre ++ (s, v) :: post) = zero_index pre ++ s :: zero_index post.
Proof.
  intros Hv. rewrite zero_index_app, (zero_index_cons_zero _ _ _ Hv).
  reflexivity.
Qed.

Lemma last_label_snoc (l : list A) (s : A) : last_label (l ++ [s]) = Some s.
Proof. unfold last_label. rewrite rev_app_distr. reflexivity. Qed.

(** C3, as the code has it.  A column is cut at a zero row with spot [s].
    If that row is the only zero, [s] is reported.  If there are more
    zeros and that row is the last of them, [s] is reported for a
    position whose name contains ['Call'].  If there are more zeros and
    that row is the first of them, [s] is reported for a position whose
    name contains ['Put'] and does not contain ['Call']. *)
Theorem scan_column_break_even (position : string) (pre post : series) (s v : A) :
  is_zero v = true ->
  (count_zeros pre = 0 -> count_zeros post = 0 ->
   scan_column position (pre ++ (s, v) :: post)
   = Some [Print position (One s); mark (Many [s])]) /\
  (0 < count_zeros pre -> count_zeros post = 0 ->
   contains "Call" position = true ->
   scan_column position (pre ++ (s, v) :: post)
   = Some [Print position (One s); mark (One s)]) /\
  (count_zeros pre = 0 -> 0 < count_zeros post ->
   contains "Call" position = false ->
   contains "Put" position = true ->
   scan_column position (pre ++ (s, v) :: post)
   = Some [Print position (One s); mark (One s)]).
Proof.
  intros Hv. unfold scan_column.
  rewrite (count_zeros_cut _ _ _ _ Hv), (zero_index_cut _ _ _ _ Hv).
  repeat split.
  - intros Hpre Hpost.
    rewrite Hpre, Hpost, (zero_index_none _ Hpre), (zero_index_none _ Hpost).
    reflexivity.
  - intros Hpre Hpost Hcall.
    rewrite Hpost, (zero_index_none _ Hpost), Hcall.
    destruct (count_zeros pre) as [|n]; [lia|].
    replace (Nat.ltb 1 (S n + 1)) with true
      by (symmetry; apply Nat.ltb_lt; lia).
    rewrite last_label_snoc. reflexivity.
  - intros Hpre Hpost Hcall Hput.
    rewrite Hpre, (zero_index_none _ Hpre), Hcall, Hput.
    destruct (count_zeros post) as [|n]; [lia|].
    reflexivity.
Qed.

(** C10: when the column of a selected position holds more than one zero
    and the name of the position contains neither ['Call'] nor ['Put'],
    the loop body only draws the curve: nothing is printed and nothing
    is marked for that position. *)
Theorem no_break_even_without_call_or_put
  (df : dataframe) (position : string) (col : series) :
  column df position = Some col ->
  1 < count_zeros col ->
  contains "Call" position = false ->
  contains "Put" position = false ->
  scan_position df position = Some [Plot position col false] /\
  filter is_report [Plot position col false] = [].
Proof.
  intros Hcol Hn Hcall Hput. unfold scan_position, scan_column.
  rewrite Hcol, Hcall, Hput.
  replace (Nat.ltb 1 (count_zeros col)) with true
    by (symmetry; apply Nat.ltb_lt; exact Hn).
  split; reflexivity.
Qed.

End ScanFacts.

Section SyntheticFacts.
Context {A : Type} {NA : Num A}.

Lemma nth_error_combine_both {T U : Type} (l : list T) (l' : list U) (i : nat) (a : T) (b : U) :
  nth_error l i = Some a -> nth_error l' i = Some b ->
  nth_error (combine l l') i = Some (a, b).
Proof.
  revert l' i. induction l as [|x l IH]; intros l' i Ha Hb.
  - destruct i; discriminate Ha.
  - destruct l' as [|y l']; [destruct i; discriminate Hb|].
    destruct i as [|i]; simpl in *.
    + congruence.
    + apply IH; assumption.
Qed.

(** Padding leaves the rows that hold a value as they are. *)
Lemma nth_error_pad_values (prev : option A) (l : list A) (t : list (option A))
  (i : nat) (w : A) :
  nth_error l i = Some w ->
  nth_error (pad prev (map Some l ++ t)) i = Some (Some w).
Proof.
  revert prev i. induction l as [|x l IH]; intros prev i Hi.
  - destruct i; discriminate Hi.
  - destruct i as [|i]; simpl in *.
    + congruence.
    + apply IH. exact Hi.
Qed.

(** The row under row [i], after the shift and the padding. *)
Lemma nth_error_shifted (vals : list A) (i : nat) (w : A) :
  nth_error vals (S i) = Some w ->
  nth_error (pad None (shift_up vals)) i = Some (Some w).
Proof.
  destruct vals as [|x rest]; [discriminate|].
  simpl. apply nth_error_pad_values.
Qed.

Lemma nth_error_lagged (col : series) (i : nat) (s v s' v' : A) :
  nth_error col i = Some (s, v) ->
  nth_error col (S i) = Some (s', v') ->
  nth_error (lagged_comparison col) i = Some (s, num_eqb v v').
Proof.
  intros Hi Hn. unfold lagged_comparison, eq_rows.
  apply nth_error_combine_both.
  - rewrite nth_error_map, Hi. reflexivity.
  - rewrite nth_error_map.
    rewrite (nth_error_combine_both (map snd col) _ i v (Some v')).
    + reflexivity.
    + rewrite nth_error_map, Hi. reflexivity.
    + apply nth_error_shifted. rewrite nth_error_map, Hn. reflexivity.
Qed.

Lemma first_valid_index_at (lc : list (A * bool)) (i : nat) (s : A) :
  nth_error lc i = Some (s, true) ->
  (forall j l b, j < i -> nth_error lc j = Some (l, b) -> b = false) ->
  first_valid_index lc = Some s.
Proof.
  revert i. induction lc as [|[l b] lc IH]; intros i Hi Hbefore.
  - destruct i; discriminate Hi.
  - destruct i as [|i]; simpl in *.
    + injection Hi as -> ->. reflexivity.
    + rewrite (Hbefore 0 l b (Nat.lt_0_succ i) eq_refl).
      apply (IH i Hi). intros j l' b' Hj E.
      apply (Hbefore (S j) l' b'); [lia | exact E].
Qed.

(** The plateau rule: the label found is the spot of the first row whose
    value equals the value of the row under it. *)
Lemma first_plateau (col : series) (i : nat) (s v s' v' : A) :
  nth_error col i = Some (s, v) ->
  nth_error col (S i) = Some (s', v') ->
  num_eqb v v' = true ->
  (forall j a b, j < i -> nth_error col j = Some a ->
     nth_error col (S j) = Some b -> num_eqb (snd a) (snd b) = false) ->
  first_valid_index (lagged_comparison col) = Some s.
Proof.
  intros Hi Hn Heq Hbefore.
  apply (first_valid_index_at _ i).
  - rewrite (nth_error_lagged _ _ _ _ _ _ Hi Hn), Heq. reflexivity.
  - intros j l b Hj E.
    assert (Hlen : S j < length col).
    { apply Nat.lt_le_trans with (S i); [lia|].
      apply Nat.lt_le_incl, nth_error_Some. rewrite Hn. discriminate. }
    destruct (nth_error col j) as [[sj vj]|] eqn:Ej.
    2:{ apply nth_error_None in Ej. lia. }
    destruct (nth_error col (S j)) as [[sn vn]|] eqn:En.
    2:{ apply nth_error_None in En. lia. }
    rewrite (nth_error_lagged _ _ _ _ _ _ Ej En) in E.
    injection E as _ <-.
    apply (Hbefore j (sj, vj) (sn, vn) Hj Ej En).
Qed.

(** The padding gives the row that the shift emptied the value above
    it. *)
Lemma pad_last_row (prev : option A) (l : list A) (w : A) :
  pad prev (map Some (l ++ [w]) ++ [None]) = map Some (l ++ [w]) ++ [Some w].
Proof.
  revert prev. induction l as [|x l IH]; intros prev; simpl.
  - reflexivity.
  - rewrite IH. reflexivity.
Qed.

(** The last row of a column of two rows or more compares its value
    with itself. *)
Lemma lagged_last_row (r0 : A * A) (mid : series) (l v : A) :
  nth_error (lagged_comparison (r0 :: mid ++ [(l, v)])) (S (length mid))
  = Some (l, num_eqb v v).
Proof.
  unfold lagged_comparison, eq_rows.
  assert (Hrow : forall (T : Type) (f : A * A -> T),
             nth_error (map f (r0 :: mid ++ [(l, v)])) (S (length mid))
             = Some (f (l, v))).
  { intros T f. simpl. rewrite map_app, nth_error_app2; rewrite length_map; [|lia].
    rewrite Nat.sub_diag. reflexivity. }
  apply nth_error_combine_both; [apply Hrow|].
  rewrite nth_error_map.
  rewrite (nth_error_combine_both _ _ (S (length mid)) v (Some v)).
  - reflexivity.
  - apply (Hrow A snd).
  - cbn [map shift_up]. rewrite map_app. cbn [map snd]. rewrite pad_last_row.
    rewrite nth_error_app2; rewrite length_map, length_app, length_map;
      cbn [length]; [|lia].
    replace (S (length mid) - (length mid + 1)) with 0 by lia.
    reflexivity.
Qed.

(** A column of two rows or more without two equal neighbours: the
    first row found is the last one, which the padding compares with
    itself. *)
Lemma flat_column_finds_last (r0 : A * A) (mid : series) (l v : A) :
  num_eqb v v = true ->
  (forall j a b,
     nth_error (r0 :: mid ++ [(l, v)]) j = Some a ->
     nth_error (r0 :: mid ++ [(l, v)]) (S j) = Some b ->
     num_eqb (snd a) (snd b) = false) ->
  first_valid_index (lagged_comparison (r0 :: mid ++ [(l, v)])) = Some l.
Proof.
  intros Hv Hflat.
  pose proof (lagged_last_row r0 mid l v) as Hlast. rewrite Hv in Hlast.
  set (col := r0 :: mid ++ [(l, v)]) in *.
  apply (first_valid_index_at _ (S (length mid)) l Hlast).
  intros j x b Hj E.
  assert (Hcol : length col = S (S (length mid))).
  { unfold col. cbn [length]. rewrite length_app. cbn [length]. lia. }
  destruct (nth_error col j) as [[sj vj]|] eqn:Ej.
  2:{ apply nth_error_None in Ej. lia. }
  destruct (nth_error col (S j)) as [[sn vn]|] eqn:En.
  2:{ apply nth_error_None in En. lia. }
  rewrite (nth_error_lagged _ _ _ _ _ _ Ej En) in E.
  injection E as _ <-.
  apply (Hflat j (sj, vj) (sn, vn) Ej En).
Qed.

(** C4, as the code has it: on the column of the synthetic position,
    with exactly two zero rows both of their spots are reported; with
    more than two zero rows the spot reported is that of the first row
    whose value equals the value of the next row, and, when no row has
    that, the spot of the last row (whose value equals itself); with
    exactly one zero row its spot is reported. *)
Theorem scan_synthetic_break_even (col : series) :
  (forall pre mid post s1 v1 s2 v2,
     col = pre ++ (s1, v1) :: mid ++ (s2, v2) :: post ->
     is_zero v1 = true -> is_zero v2 = true ->
     count_zeros pre = 0 -> count_zeros mid = 0 -> count_zeros post = 0 ->
     scan_synthetic_column col
     = Some [Print "Synthetic Position" (Many [s1; s2]);
             mark_synthetic (One s1); mark_synthetic (One s2)]) /\
  (forall i s v s' v',
     2 < count_zeros col ->
     nth_error col i = Some (s, v) ->
     nth_error col (S i) = Some (s', v') ->
     num_eqb v v' = true ->
     (forall j a b, j < i -> nth_error col j = Some a ->
        nth_error col (S j) = Some b -> num_eqb (snd a) (snd b) = false) ->
     scan_synthetic_column col
     = Some [Print "Synthetic Position" (One s); mark_synthetic (One s)]) /\
  (forall pre l v,
     2 < count_zeros col ->
     col = pre ++ [(l, v)] ->
     num_eqb v v = true ->
     (forall j a b, nth_error col j = Some a ->
        nth_error col (S j) = Some b -> num_eqb (snd a) (snd b) = false) ->
     scan_synthetic_column col
     = Some [Print "Synthetic Position" (One l); mark_synthetic (One l)]) /\
  (forall pre post s v,
     col = pre ++ (s, v) :: post ->
     is_zero v = true ->
     count_zeros pre = 0 -> count_zeros post = 0 ->
     scan_synthetic_column col
     = Some [Print "Synthetic Position" (One s); mark_synthetic (Many [s])]).
Proof.
  repeat split.
  - intros pre mid post s1 v1 s2 v2 -> H1 H2 Hpre Hmid Hpost.
    unfold scan_synthetic_column.
    rewrite (count_zeros_cut _ _ _ _ H1), (zero_index_cut _ _ _ _ H1).
    rewrite (count_zeros_cut _ _ _ _ H2), (zero_index_cut _ _ _ _ H2).
    rewrite Hpre, Hmid, Hpost.
    rewrite (zero_index_none _ Hpre), (zero_index_none _ Hmid),
      (zero_index_none _ Hpost).
    reflexivity.
  - intros i s v s' v' Hn Hi Hnext Heq Hbefore.
    unfold scan_synthetic_column.
    replace (Nat.eqb (count_zeros col) 2) with false
      by (symmetry; apply Nat.eqb_neq; lia).
    replace (Nat.ltb 1 (count_zeros col)) with true
      by (symmetry; apply Nat.ltb_lt; lia).
    rewrite (first_plateau _ _ _ _ _ _ Hi Hnext Heq Hbefore).
    reflexivity.
  - intros pre l v Hn -> Hv Hflat.
    unfold scan_synthetic_column.
    replace (Nat.eqb (count_zeros (pre ++ [(l, v)])) 2) with false
      by (symmetry; apply Nat.eqb_neq; lia).
    replace (Nat.ltb 1 (count_zeros (pre ++ [(l, v)]))) with true
      by (symmetry; apply Nat.ltb_lt; lia).
    destruct pre as [|r0 mid].
    + unfold count_zeros in Hn. cbn [app filter] in Hn.
      destruct (is_zero (snd (l, v))); cbn [length] in Hn; lia.
    + change ((r0 :: mid) ++ [(l, v)]) with (r0 :: mid ++ [(l, v)]) in *.
      rewrite (flat_column_finds_last r0 mid l v Hv Hflat). reflexivity.
  - intros pre post s v -> Hv Hpre Hpost.
    unfold scan_synthetic_column.
    rewrite (count_zeros_cut _ _ _ _ Hv), (zero_index_cut _ _ _ _ Hv).
    rewrite Hpre, Hpost, (zero_index_none _ Hpre), (zero_index_none _ Hpost).
    reflexivity.
Qed.

End SyntheticFacts.

Section ScanExamples.
Local Open Scope Z_scope.
Local Open Scope string_scope.

(** A stock bought at 100; a call and a put struck at 100 with premium 0,
    whose payoffs are zero on a whole side of the strike. *)
Lemma scan_column_break_even_witness :
  scan_column "Long Stock" (combine example_S (fst (Long_Stock example_S 100 1)))
  = Some [Print "Long Stock" (One 100); mark (Many [100])] /\
  scan_column "Long Call" (combine example_S (fst (Long_Call example_S 100 1 0)))
  = Some [Print "Long Call" (One 100); mark (One 100)] /\
  scan_column "Long Put" (combine example_S (fst (Long_Put example_S 100 1 0)))
  = Some [Print "Long Put" (One 100); mark (One 100)].
Proof.
  split; [|split].
  - exact (proj1 (scan_column_break_even "Long Stock"
                    [(80, -20); (90, -10)] [(110, 10); (120, 20)] 100 0 eq_refl)
             eq_refl eq_refl).
  - exact (proj1 (proj2 (scan_column_break_even "Long Call"
                    [(80, 0); (90, 0)] [(110, 10); (120, 20)] 100 0 eq_refl))
             (Nat.lt_0_2) eq_refl eq_refl).
  - exact (proj2 (proj2 (scan_column_break_even "Long Put"
                    [(80, 20); (90, 10)] [(110, 0); (120, 0)] 100 0 eq_refl))
             eq_refl (Nat.lt_0_2) eq_refl eq_refl).
Defined.

(** C3 as stated fails on a name that contains both words: the ['Call']
    branch is tested first, so the last zero spot is reported although
    the name contains ['Put']. *)
Lemma put_and_call_in_name_reports_last :
  ~ (forall (position : string) (pre post : series) (s v : Z),
       is_zero v = true ->
       count_zeros pre = 0%nat -> (0 < count_zeros post)%nat ->
       contains "Put" position = true ->
       scan_column position (pre ++ (s, v) :: post)%list
       = Some [Print position (One s); mark (One s)]).
Proof.
  intros H.
  specialize (H "Long Put + Short Call" [(80, 20); (90, 10)]
                [(110, 0); (120, 0)] 100 0 eq_refl eq_refl Nat.lt_0_2 eq_refl).
  vm_compute in H. discriminate H.
Qed.

(** A stock position on a grid that lists the purchase price twice. *)
Lemma no_break_even_without_call_or_put_witness :
  scan_position
    {| df_index := [90; 100; 100; 110];
       df_columns := [("Long Stock", [-10; 0; 0; 10])] |}
    "Long Stock"
  = Some [Plot "Long Stock" [(90, -10); (100, 0); (100, 0); (110, 10)] false] /\
  filter is_report
    [Plot "Long Stock" [(90, -10); (100, 0); (100, 0); (110, 10)] false] = [].
Proof.
  exact (no_break_even_without_call_or_put
           {| df_index := [90; 100; 100; 110];
              df_columns := [("Long Stock", [-10; 0; 0; 10])] |}
           "Long Stock" [(90, -10); (100, 0); (100, 0); (110, 10)]
           eq_refl (Nat.lt_1_2) eq_refl eq_refl).
Defined.

(** A straddle, a profile that is flat at zero over three spots, a
    profile that touches zero three times without staying there, and a
    profile that crosses zero once. *)
Lemma scan_synthetic_break_even_witness :
  scan_synthetic_column [(80, 10); (90, 0); (100, -10); (110, 0); (120, 10)]
  = Some [Print "Synthetic Position" (Many [90; 110]);
          mark_synthetic (One 90); mark_synthetic (One 110)] /\
  scan_synthetic_column [(80, -10); (90, 0); (100, 0); (110, 0); (120, 10)]
  = Some [Print "Synthetic Position" (One 90); mark_synthetic (One 90)] /\
  scan_synthetic_column [(80, 0); (90, 1); (100, 0); (110, 3); (120, 0)]
  = Some [Print "Synthetic Position" (One 120); mark_synthetic (One 120)] /\
  scan_synthetic_column [(80, -20); (90, -10); (100, 0); (110, 10); (120, 20)]
  = Some [Print "Synthetic Position" (One 100); mark_synthetic (Many [100])].
Proof.
  split; [|split; [|split]].
  - exact (proj1 (scan_synthetic_break_even _)
             [(80, 10)] [(100, -10)] [(120, 10)] 90 0 110 0
             eq_refl eq_refl eq_refl eq_refl eq_refl eq_refl).
  - refine (proj1 (proj2 (scan_synthetic_break_even
                            [(80, -10); (90, 0); (100, 0); (110, 0); (120, 10)]))
              1%nat 90 0 100 0 (Nat.lt_succ_diag_r 2) eq_refl eq_refl eq_refl _).
    intros j a b Hj Ea Eb.
    destruct j as [|j]; [|lia].
    injection Ea as <-. injection Eb as <-. reflexivity.
  - refine (proj1 (proj2 (proj2 (scan_synthetic_break_even
                            [(80, 0); (90, 1); (100, 0); (110, 3); (120, 0)])))
              [(80, 0); (90, 1); (100, 0); (110, 3)] 120 0
              (Nat.lt_succ_diag_r 2) eq_refl eq_refl _).
    intros j a b Ea Eb.
    do 4 (destruct j as [|j];
          [injection Ea as <-; injection Eb as <-; reflexivity|]).
    destruct j; discriminate Eb.
  - exact (proj2 (proj2 (proj2 (scan_synthetic_break_even _)))
             [(80, -20); (90, -10)] [(110, 10); (120, 20)] 100 0
             eq_refl eq_refl eq_refl eq_refl).
Defined.

(** C4 as stated fails: a column can hold more than two zeros and no row
    equal to the next one; a spot is reported all the same, and it is
    not a spot whose payoff equals the payoff at the next index. *)
Lemma plateau_rule_without_plateau :
  ~ (forall col : series (A:=Z),
       (2 < count_zeros col)%nat ->
       exists i s v s' v',
         nth_error col i = Some (s, v) /\
         nth_error col (S i) = Some (s', v') /\
         num_eqb v v' = true /\
         scan_synthetic_column col
         = Some [Print "Synthetic Position" (One s); mark_synthetic (One s)]).
Proof.
  intros H.
  destruct (H [(80, 0); (90, 1); (100, 0); (110, 3); (120, 0)]
              (Nat.lt_succ_diag_r 2))
    as (i & s & v & s' & v' & Ei & En & Eq & _).
  do 4 (destruct i as [|i];
        [injection Ei as <- <-; injection En as <- <-; discriminate Eq|]).
  destruct i; discriminate En.
Qed.

End ScanExamples.

(** ** Put-call parity *)

Section Parity.
Local Open Scope R_scope.
Import BSM.

Lemma norm_pdf_even (t : R) : norm_pdf (- t) = norm_pdf t.
Proof.
  unfold norm_pdf. replace (- t * - t) with (t * t) by ring. reflexivity.
Qed.

Lemma norm_mass_chasles (a b c : R) :
  norm_mass a b + norm_mass b c = norm_mass a c.
Proof. unfold norm_mass. apply RiemannInt_P26. Qed.

(** The mass between [0] and [-x] is the opposite of the mass between
    [0] and [x]: on [[-m, m]] both [y |-> mass (-m) y] and
    [y |-> - mass (-m) (-y)] are antiderivatives of the even density, so
    they differ by a constant. *)
Lemma norm_mass_odd (x : R) : norm_mass 0 (- x) = - norm_mass 0 x.
Proof.
  set (m := Rabs x + 1).
  assert (Hx : - m <= x <= m).
  { unfold m. pose proof (Rle_abs x). pose proof (Rle_abs (- x)).
    rewrite Rabs_Ropp in *. lra. }
  assert (h : - m <= m) by lra.
  set (C0 := fun (y : R) (_ : - m <= y <= m) => norm_pdf_continuous y).
  set (P := primitive h (FTC_P1 h C0)).
  assert (HP : forall y, - m <= y <= m -> P y = norm_mass (- m) y).
  { intros y [Hy1 Hy2]. unfold P, primitive.
    destruct (Rle_dec (- m) y) as [r|]; [|lra].
    destruct (Rle_dec y m) as [r0|]; [|lra].
    apply RiemannInt_P5. }
  assert (A1 : antiderivative norm_pdf P (- m) m) by apply RiemannInt_P29.
  assert (A2 : antiderivative norm_pdf (fun y => - P (- y)) (- m) m).
  { split; [|exact h]. intros y Hy.
    assert (D : derivable_pt_lim (fun y => - P (- y)) y (norm_pdf y)).
    { replace (norm_pdf y) with (- (norm_pdf (- y) * (-1)))
        by (rewrite norm_pdf_even; ring).
      apply (derivable_pt_lim_opp (fun y => P (- y))).
      apply (derivable_pt_lim_comp (fun y => - y) P).
      - replace (-1) with (- 1) by ring.
        apply (derivable_pt_lim_opp (fun y => y)). apply derivable_pt_lim_id.
      - apply (RiemannInt_P28 h C0). lra. }
    exists (exist _ (norm_pdf y) D). reflexivity. }
  destruct (antiderivative_Ucte _ _ _ _ _ A1 A2) as [c Hc].
  assert (H0 : P 0 = - P (- 0) + c) by (apply Hc; lra).
  assert (H1 : P x = - P (- x) + c) by (apply Hc; lra).
  rewrite Ropp_0 in H0.
  rewrite !HP in H0 by lra.
  rewrite (HP x), (HP (- x)) in H1 by lra.
  pose proof (norm_mass_chasles (- m) 0 x).
  pose proof (norm_mass_chasles (- m) 0 (- x)).
  lra.
Qed.

Lemma norm_cdf_symmetry (x : R) : norm_cdf x + norm_cdf (- x) = 1.
Proof. unfold norm_cdf. rewrite norm_mass_odd. lra. Qed.

(** Parity holds for whatever [d1] and [d2] the two prices are given. *)
Lemma parity_any (S X r T a b : R) :
  BSM_Call S X r T a b - BSM_Put S X r T a b = S - X * exp (- r * T).
Proof.
  unfold BSM_Call, BSM_Put.
  pose proof (norm_cdf_symmetry a) as Ha.
  pose proof (norm_cdf_symmetry b) as Hb.
  replace (norm_cdf (- a)) with (1 - norm_cdf a) by lra.
  replace (norm_cdf (- b)) with (1 - norm_cdf b) by lra.
  ring.
Qed.

(** C1: put-call parity.  For [S > 0], [X > 0], [T > 0], [stdev > 0] and
    any [r], with [d1] and [d2] computed from these inputs, the call
    price minus the put price is [S - X * exp(-r * T)], in real
    arithmetic. *)
Theorem put_call_parity (S X r T stdev : R) :
  0 < S -> 0 < X -> 0 < T -> 0 < stdev ->
  BSM_Call S X r T (d1 S X r stdev T) (d2 S X r stdev T)
  - BSM_Put S X r T (d1 S X r stdev T) (d2 S X r stdev T)
  = S - X * exp (- r * T).
Proof. intros _ _ _ _. apply parity_any. Qed.

(** At the money, 5% rate, one year, 20% volatility. *)
Lemma put_call_parity_witness :
  BSM_Call 100 100 (5 / 100) 1 (d1 100 100 (5 / 100) (1 / 5) 1)
                              (d2 100 100 (5 / 100) (1 / 5) 1)
  - BSM_Put 100 100 (5 / 100) 1 (d1 100 100 (5 / 100) (1 / 5) 1)
                               (d2 100 100 (5 / 100) (1 / 5) 1)
  = 100 - 100 * exp (- (5 / 100) * 1).
Proof.
  apply (put_call_parity 100 100 (5 / 100) 1 (1 / 5)); lra.
Defined.

End Parity.

(** ** Zero volatility or zero time to expiry *)

Section Degenerate.
Import Float64.
Variable np_log : float64 -> float64.
Variable power : float64 -> float64 -> float64.

(** [x == 0] holds of the two zeros only. *)
Lemma is_zero_inv (x : float64) :
  Float64.is_zero x = true -> exists s, x = S754_zero s.
Proof.
  destruct x as [s| s | | s m e]; intros E.
  - exists s. reflexivity.
  - destruct s; discriminate E.
  - discriminate E.
  - destruct s; discriminate E.
Qed.

Lemma fmul_zero_l (s : bool) (y : float64) :
  zero_or_nan (fmul (S754_zero s) y) = true.
Proof. destruct y as [sy|sy| |sy m e]; reflexivity. Qed.

Lemma fmul_zero_r (x : float64) (s : bool) :
  zero_or_nan (fmul x (S754_zero s)) = true.
Proof. destruct x as [sx|sx| |sx m e]; reflexivity. Qed.

Lemma np_sqrt_zero (s : bool) : np_sqrt (S754_zero s) = S754_zero s.
Proof. reflexivity. Qed.

(** The divisor [stdev * np.sqrt(T)] when [stdev] or [T] is zero. *)
Lemma divisor_zero_or_nan (stdev T : float64) :
  Float64.is_zero stdev = true \/ Float64.is_zero T = true ->
  zero_or_nan (fmul stdev (np_sqrt T)) = true.
Proof.
  intros [E|E]; apply is_zero_inv in E; destruct E as [s ->].
  - apply fmul_zero_l.
  - rewrite np_sqrt_zero. apply fmul_zero_r.
Qed.

(** Dividing by a zero or by NaN gives an infinity or NaN. *)
Lemma fdiv_not_finite (x y : float64) :
  zero_or_nan y = true -> is_finite (fdiv x y) = false.
Proof.
  destruct y as [sy|sy| |sy m e]; intros E; try discriminate E;
    destruct x as [sx|sx| |sx mx ex]; reflexivity.
Qed.

(** C8: for [S > 0] and [X > 0], when [stdev] or [T] is zero, [d1] and
    [d2] are not finite numbers: each is NaN or an infinity. *)
Theorem d1_d2_not_finite (S X r stdev T : float64) :
  is_positive S = true -> is_positive X = true ->
  Float64.is_zero stdev = true \/ Float64.is_zero T = true ->
  is_finite (d1 np_log power S X r stdev T) = false /\
  is_finite (d2 np_log power S X r stdev T) = false.
Proof.
  intros _ _ E. unfold d1, d2.
  split; apply fdiv_not_finite, divisor_zero_or_nan, E.
Qed.

End Degenerate.

Section DegenerateExamples.
Import Float64.

(** Spot and strike 100, rate 1, one year, zero volatility; the two
    library routines are stood in for by [x - 1], the logarithm to first
    order at 1, and by the square. *)
Lemma d1_d2_not_finite_witness :
  is_finite (d1 (fun x => fsub x (of_int 1))
                (fun x _ => fmul x x)
                (of_int 100) (of_int 100) (of_int 1) (of_int 0) (of_int 1))
  = false /\
  is_finite (d2 (fun x => fsub x (of_int 1))
                (fun x _ => fmul x x)
                (of_int 100) (of_int 100) (of_int 1) (of_int 0) (of_int 1))
  = false.
Proof.
  apply d1_d2_not_finite.
  - reflexivity.
  - reflexivity.
  - left. reflexivity.
Defined.

End DegenerateExamples.

Section RenderingExamples.
Local Open Scope Z_scope.

(** Three zeros and no two equal neighbours: the only row that compares
    equal is the last one, against its own padded value, and its spot is
    the one reported. *)
Example no_plateau_reports_last_spot :
  lagged_comparison [(80, 0); (90, 1); (100, 0); (110, 3); (120, 0)]
  = [(80, false); (90, false); (100, false); (110, false); (120, true)] /\
  scan_synthetic_column [(80, 0); (90, 1); (100, 0); (110, 3); (120, 0)]
  = Some [Print "Synthetic Position" (One 120); mark_synthetic (One 120)].
Proof. split; reflexivity. Qed.

(** The whole scan on a call and a put struck at 100 with premium 10 and
    the straddle they add up to. *)
Example straddle_scan :
  graph_payoffs ["Long Call"; "Long Put"]%string example_S
    {| df_index := example_S;
       df_columns :=
         [("Long Call", fst (Long_Call example_S 100 1 10));
          ("Long Put", fst (Long_Put example_S 100 1 10));
          ("Synthetic Position",
           add_seq (fst (Long_Call example_S 100 1 10))
                   (fst (Long_Put example_S 100 1 10)))]%string |}
  = Some [Plot "Long Call" (combine example_S [-10; -10; -10; 0; 10]) false;
          Print "Long Call" (One 110); mark (Many [110]);
          Plot "Long Put" (combine example_S [10; 0; -10; -10; -10]) false;
          Print "Long Put" (One 90); mark (Many [90]);
          Plot "Synthetic Position" (combine example_S [0; -10; -20; -10; 0]) true;
          Print "Synthetic Position" (Many [80; 120]);
          mark_synthetic (One 80); mark_synthetic (One 120)].
Proof. reflexivity. Qed.

End RenderingExamples.

(** * Further properties *)

(** ** Pricing formulas *)

Section PricingFacts.
Local Open Scope R_scope.
Import BSM.



(** X2: [BSM_Put] agrees with the formula kept in the comment under it,
    which prices the put with [1 - norm.cdf(d)] in place of
    [norm.cdf(-d)]. *)
Theorem put_price_complement_form (S X r T a b : R) :
  BSM_Put S X r T a b
  = (X * exp (- r * T) * (1 - norm_cdf b)) - (S * (1 - norm_cdf a)).
Proof.
  unfold BSM_Put.
  pose proof (norm_cdf_symmetry a) as Ha.
  pose proof (norm_cdf_symmetry b) as Hb.
  replace (norm_cdf (- a)) with (1 - norm_cdf a) by lra.
  replace (norm_cdf (- b)) with (1 - norm_cdf b) by lra.
  reflexivity.
Qed.

(** X3: the parity between [BSM_Call] and [BSM_Put] does not depend on
    the [d1] and [d2] they are handed: it holds for any two numbers, also
    ones that were not computed from [S], [X], [r] and [T]. *)
Theorem parity_for_any_d1_d2 (S X r T a b : R) :
  BSM_Call S X r T a b - BSM_Put S X r T a b = S - X * exp (- r * T).
Proof. apply parity_any. Qed.

(** X4: for a positive strike, volatility and time to expiry, [d1] and
    [d2] grow strictly with the spot. *)
Theorem d1_d2_increase_with_spot (S S' X r stdev T : R) :
  0 < X -> 0 < stdev -> 0 < T -> 0 < S -> S < S' ->
  d1 S X r stdev T < d1 S' X r stdev T /\
  d2 S X r stdev T < d2 S' X r stdev T.
Proof.
  intros HX Hs HT HS Hlt. unfold d1, d2.
  assert (Hq : 0 < stdev * sqrt T).
  { apply Rmult_lt_0_compat; [exact Hs | apply sqrt_lt_R0; exact HT]. }
  assert (Hln : ln (S / X) < ln (S' / X)).
  { apply ln_increasing.
    - apply Rdiv_lt_0_compat; assumption.
    - unfold Rdiv. apply Rmult_lt_compat_r; [apply Rinv_0_lt_compat|]; assumption. }
  split; apply Rmult_lt_compat_r;
    try (apply Rinv_0_lt_compat; exact Hq); lra.
Qed.

Lemma d1_d2_increase_with_spot_witness :
  d1 100 100 (5 / 100) (1 / 5) 1 < d1 110 100 (5 / 100) (1 / 5) 1 /\
  d2 100 100 (5 / 100) (1 / 5) 1 < d2 110 100 (5 / 100) (1 / 5) 1.
Proof.
  apply (d1_d2_increase_with_spot 100 110 100 (5 / 100) (1 / 5) 1); lra.
Defined.

End PricingFacts.

(** ** [d1] and [d2] on floats that are not positive numbers *)

Section FloatFacts.
Import Float64.

Lemma fmul_nan_r (x : float64) : fmul x S754_nan = S754_nan.
Proof. destruct x; reflexivity. Qed.

Lemma fmul_nan_l (y : float64) : fmul S754_nan y = S754_nan.
Proof. reflexivity. Qed.

Lemma fdiv_nan_r (x : float64) : fdiv x S754_nan = S754_nan.
Proof. destruct x; reflexivity. Qed.

(** The square root of a negative number or of NaN is NaN. *)
Lemma np_sqrt_nan (T : float64) :
  SFltb T (of_int 0) = true \/ T = S754_nan -> np_sqrt T = S754_nan.
Proof.
  intros [E| ->]; [|reflexivity].
  destruct T as [s|[|]| |[|] m e]; try reflexivity; discriminate E.
Qed.

(** The divisor [stdev * np.sqrt(T)] is NaN. *)
Lemma divisor_nan (stdev T : float64) :
  SFltb T (of_int 0) = true \/ T = S754_nan \/ stdev = S754_nan ->
  fmul stdev (np_sqrt T) = S754_nan.
Proof.
  intros [E|[E|E]].
  - rewrite (np_sqrt_nan T (or_introl E)). apply fmul_nan_r.
  - rewrite (np_sqrt_nan T (or_intror E)). apply fmul_nan_r.
  - rewrite E. apply fmul_nan_l.
Qed.

End FloatFacts.

Section PyFloatFacts.
Import Float64.
Variable np_log : float64 -> float64.
Variable power : float64 -> float64 -> option float64.

(** X5: on Python floats, when the time to expiry is negative (a
    negative number or minus infinity) or NaN, or the volatility is NaN,
    [d1] and [d2] never return a number: they raise when the strike is
    zero (the division [S / X]), they raise when [stdev ** 2] does, and
    in every other case they return NaN. *)
Theorem d1_d2_raise_or_nan (S X r stdev T : float64) :
  SFltb T (of_int 0) = true \/ T = S754_nan \/ stdev = S754_nan ->
  PyFloat.d1 np_log power S X r stdev T
  = (if Float64.is_zero X then None
     else match power stdev (of_int 2) with
          | None => None
          | Some _ => Some S754_nan
          end) /\
  PyFloat.d2 np_log power S X r stdev T
  = (if Float64.is_zero X then None
     else match power stdev (of_int 2) with
          | None => None
          | Some _ => Some S754_nan
          end).
Proof.
  intros E. unfold PyFloat.d1, PyFloat.d2, PyFloat.truediv.
  rewrite (divisor_nan stdev T E).
  destruct (Float64.is_zero X); [split; reflexivity|].
  destruct (power stdev (of_int 2)); [|split; reflexivity].
  rewrite !fdiv_nan_r. split; reflexivity.
Qed.

End PyFloatFacts.

Section FloatExamples.
Import Float64.

(** One year in the past, at strike 100 and at strike 0. *)
Lemma d1_d2_raise_or_nan_witness :
  (PyFloat.d1 (fun x => fsub x (of_int 1)) PyFloat.square_or_raise
     (of_int 100) (of_int 100) (of_int 1) (of_int 1) (of_int (-1))
   = Some S754_nan /\
   PyFloat.d2 (fun x => fsub x (of_int 1)) PyFloat.square_or_raise
     (of_int 100) (of_int 100) (of_int 1) (of_int 1) (of_int (-1))
   = Some S754_nan) /\
  (PyFloat.d1 (fun x => fsub x (of_int 1)) PyFloat.square_or_raise
     (of_int 100) (of_int 0) (of_int 1) (of_int 1) (of_int (-1))
   = None /\
   PyFloat.d2 (fun x => fsub x (of_int 1)) PyFloat.square_or_raise
     (of_int 100) (of_int 0) (of_int 1) (of_int 1) (of_int (-1))
   = None).
Proof.
  split.
  - exact (d1_d2_raise_or_nan (fun x => fsub x (of_int 1))
             PyFloat.square_or_raise
             (of_int 100) (of_int 100) (of_int 1) (of_int 1) (of_int (-1))
             (or_introl eq_refl)).
  - exact (d1_d2_raise_or_nan (fun x => fsub x (of_int 1))
             PyFloat.square_or_raise
             (of_int 100) (of_int 0) (of_int 1) (of_int 1) (of_int (-1))
             (or_introl eq_refl)).
Defined.

End FloatExamples.

(** ** Payoffs on integers *)

Ltac znum :=
  cbn [num_0 num_1 num_add num_sub num_mul num_neg num_max num_eqb Num_Z] in *.

Ltac zmax :=
  repeat match goal with
         | |- context [Z.max ?a ?b] =>
             destruct (Z.max_spec a b) as [[? ->]|[? ->]]
         end.

Section PayoffIntegers.
Local Open Scope Z_scope.

(** X6: with a premium that is not negative, the break-even price a
    call or put function returns is a spot at which the payoff it
    computes is zero; so is the one of the stock functions. *)
Theorem break_even_is_root (S : list Z) (X N premium buy_price : Z) :
  0 <= premium ->
  fst (Long_Call [snd (Long_Call S X N premium)] X N premium) = [0] /\
  fst (Short_Call [snd (Short_Call S X N premium)] X N premium) = [0] /\
  fst (Long_Put [snd (Long_Put S X N premium)] X N premium) = [0] /\
  fst (Short_Put [snd (Short_Put S X N premium)] X N premium) = [0] /\
  fst (Long_Stock [snd (Long_Stock S buy_price N)] buy_price N) = [0] /\
  fst (Short_Stock [snd (Short_Stock S buy_price N)] buy_price N) = [0].
Proof.
  intros Hp. unfold Long_Call, Short_Call, Long_Put, Short_Put,
    Long_Stock, Short_Stock. simpl. znum.
  repeat split; f_equal; zmax;
    first [ring | assert (premium = 0) as -> by lia; ring].
Qed.

Lemma break_even_is_root_witness :
  fst (Long_Call [snd (Long_Call example_S 100 1 5)] 100 1 5) = [0] /\
  fst (Short_Call [snd (Short_Call example_S 100 1 5)] 100 1 5) = [0] /\
  fst (Long_Put [snd (Long_Put example_S 100 1 5)] 100 1 5) = [0] /\
  fst (Short_Put [snd (Short_Put example_S 100 1 5)] 100 1 5) = [0] /\
  fst (Long_Stock [snd (Long_Stock example_S 100 1)] 100 1) = [0] /\
  fst (Short_Stock [snd (Short_Stock example_S 100 1)] 100 1) = [0].
Proof.
  apply (break_even_is_root example_S 100 1 5 100). lia.
Defined.

(** The payoff of a call or put is zero at one spot only. *)
Lemma call_payoff_zero_iff (X N premium s : Z) :
  0 < premium -> N <> 0 ->
  ((Z.max 0 (s - X) - premium) * N = 0 <-> s = X + premium).
Proof.
  intros Hp HN. split.
  - intros E. apply Z.mul_eq_0_l in E; [|exact HN]. lia.
  - intros ->. replace (Z.max 0 (X + premium - X)) with premium by lia. ring.
Qed.

Lemma put_payoff_zero_iff (X N premium s : Z) :
  0 < premium -> N <> 0 ->
  ((Z.max 0 (X - s) - premium) * N = 0 <-> s = X - premium).
Proof.
  intros Hp HN. split.
  - intros E. apply Z.mul_eq_0_l in E; [|exact HN]. lia.
  - intros ->. replace (Z.max 0 (X - (X - premium))) with premium by lia. ring.
Qed.

(** X7: with a positive premium and a quantity that is not zero, the
    payoff of a long call is zero at the spot [X + premium] and at no
    other, and the payoff of a long put at [X - premium] and at no
    other. *)
Theorem break_even_is_only_root (X N premium s : Z) :
  0 < premium -> N <> 0 ->
  (fst (Long_Call [s] X N premium) = [0] <-> s = snd (Long_Call [s] X N premium)) /\
  (fst (Long_Put [s] X N premium) = [0] <-> s = snd (Long_Put [s] X N premium)).
Proof.
  intros Hp HN. unfold Long_Call, Long_Put. simpl. znum.
  pose proof (call_payoff_zero_iff X N premium s Hp HN) as Hc.
  pose proof (put_payoff_zero_iff X N premium s Hp HN) as Hu.
  split; split; intros E.
  - injection E as E. apply Hc. exact E.
  - f_equal. apply Hc. exact E.
  - injection E as E. apply Hu. exact E.
  - f_equal. apply Hu. exact E.
Qed.

Lemma break_even_is_only_root_witness :
  (fst (Long_Call [105] 100 1 5) = [0] <-> 105 = snd (Long_Call [105] 100 1 5)) /\
  (fst (Long_Put [105] 100 1 5) = [0] <-> 105 = snd (Long_Put [105] 100 1 5)).
Proof.
  apply (break_even_is_only_root 100 1 5 105); lia.
Defined.

(** X8: for a quantity that is not negative, a long call or put never
    pays less than minus the premium times the quantity, and a short
    call or put never pays more than the premium times the quantity. *)
Theorem option_payoff_bounds (S : list Z) (X N premium : Z) :
  0 <= N ->
  Forall (fun v => - (premium * N) <= v) (fst (Long_Call S X N premium)) /\
  Forall (fun v => - (premium * N) <= v) (fst (Long_Put S X N premium)) /\
  Forall (fun v => v <= premium * N) (fst (Short_Call S X N premium)) /\
  Forall (fun v => v <= premium * N) (fst (Short_Put S X N premium)).
Proof.
  intros HN. unfold Long_Call, Long_Put, Short_Call, Short_Put. simpl.
  repeat split; apply Forall_map, Forall_forall; intros s _; znum; zmax; nia.
Qed.

Lemma option_payoff_bounds_witness :
  Forall (fun v => - (5 * 1) <= v) (fst (Long_Call example_S 100 1 5)) /\
  Forall (fun v => - (5 * 1) <= v) (fst (Long_Put example_S 100 1 5)) /\
  Forall (fun v => v <= 5 * 1) (fst (Short_Call example_S 100 1 5)) /\
  Forall (fun v => v <= 5 * 1) (fst (Short_Put example_S 100 1 5)).
Proof.
  apply (option_payoff_bounds example_S 100 1 5). lia.
Defined.

(** X9: a long call and a short put on the same strike, quantity and
    premium pay together [(s - X) * N] at every spot [s], the payoff of
    [N] shares bought at the strike. *)
Theorem call_and_short_put_payoff (S : list Z) (X N premium : Z) :
  add_seq (fst (Long_Call S X N premium)) (fst (Short_Put S X N premium))
  = map (fun s => (s - X) * N) S.
Proof.
  unfold Long_Call, Short_Put. cbn [fst]. rewrite add_seq_map.
  apply map_ext. intros s. znum.
  rewrite <- Z.mul_add_distr_r. f_equal. lia.
Qed.


(** X11: a straddle, a long call and a long put on the same strike,
    quantity and premium, pays the distance of the spot from the strike
    less twice the premium, times the quantity. *)
Theorem straddle_payoff (S : list Z) (X N premium : Z) :
  add_seq (fst (Long_Call S X N premium)) (fst (Long_Put S X N premium))
  = map (fun s => (Z.abs (s - X) - 2 * premium) * N) S.
Proof.
  unfold Long_Call, Long_Put. cbn [fst]. rewrite add_seq_map.
  apply map_ext. intros s. znum.
  rewrite <- Z.mul_add_distr_r. f_equal. lia.
Qed.

End PayoffIntegers.

(** ** What the scan can and cannot do *)

Section ScanTotal.
Context {A : Type} {NA : Num A}.

Lemma first_label_some (idx : list A) :
  0 < length idx -> exists l, first_label idx = Some l.
Proof.
  destruct idx as [|l idx]; simpl; intros Hn; [lia|]. exists l. reflexivity.
Qed.

Lemma last_label_some (idx : list A) :
  0 < length idx -> exists l, last_label idx = Some l.
Proof.
  intros Hn. unfold last_label.
  destruct (rev idx) as [|l r] eqn:E.
  - apply (f_equal (@length A)) in E. rewrite length_rev in E.
    simpl in E. lia.
  - exists l. reflexivity.
Qed.

(** The loop body raises no [IndexError]: where it indexes the zero rows
    there is one. *)
Lemma scan_column_total (position : string) (col : series (A:=A)) :
  exists evs, scan_column position col = Some evs.
Proof.
  unfold scan_column.
  destruct (Nat.ltb 1 (count_zeros col)) eqn:E1.
  - apply Nat.ltb_lt in E1.
    destruct (contains "Call" position).
    + destruct (last_label_some (zero_index col)) as [l ->];
        [rewrite zero_index_length; lia|]. eexists. reflexivity.
    + destruct (contains "Put" position).
      * destruct (first_label_some (zero_index col)) as [l ->];
          [rewrite zero_index_length; lia|]. eexists. reflexivity.
      * eexists. reflexivity.
  - destruct (Nat.ltb 0 (count_zeros col)) eqn:E0.
    + apply Nat.ltb_lt in E0.
      destruct (first_label_some (zero_index col)) as [l ->];
        [rewrite zero_index_length; lia|]. eexists. reflexivity.
    + eexists. reflexivity.
Qed.

Lemma scan_synthetic_column_total (col : series (A:=A)) :
  exists evs, scan_synthetic_column col = Some evs.
Proof.
  unfold scan_synthetic_column.
  destruct (Nat.eqb (count_zeros col) 2); [eexists; reflexivity|].
  destruct (Nat.ltb 1 (count_zeros col)); [eexists; reflexivity|].
  destruct (Nat.ltb 0 (count_zeros col)) eqn:E0; [|eexists; reflexivity].
  apply Nat.ltb_lt in E0.
  destruct (first_label_some (zero_index col)) as [l ->];
    [rewrite zero_index_length; lia|]. eexists. reflexivity.
Qed.

Lemma has_column_named (df : dataframe (A:=A)) (name : string) :
  has_column df name = true <->
  0 < length (columns_named name (df_columns df)).
Proof.
  unfold has_column, columns_named.
  induction (df_columns df) as [|[n v] cols IH]; simpl.
  - split; [discriminate | lia].
  - destruct (String.eqb n name); simpl.
    + split; [lia | reflexivity].
    + exact IH.
Qed.

Lemma column_none (df : dataframe (A:=A)) (name : string) :
  column df name = None <->
  length (columns_named name (df_columns df)) <> 1.
Proof.
  unfold column.
  destruct (columns_named name (df_columns df)) as [|v [|w rest]]; simpl.
  - split; [lia | reflexivity].
  - split; [discriminate | lia].
  - split; [lia | reflexivity].
Qed.

Lemma scan_synthetic_none (df : dataframe (A:=A)) :
  scan_synthetic df = None <->
  1 < length (columns_named "Synthetic Position" (df_columns df)).
Proof.
  unfold scan_synthetic.
  pose proof (has_column_named df "Synthetic Position") as Hhas.
  pose proof (column_none df "Synthetic Position") as Hcol.
  destruct (has_column df "Synthetic Position").
  - assert (Hpos : 0 < length (columns_named "Synthetic Position" (df_columns df)))
      by (apply Hhas; reflexivity).
    destruct (column df "Synthetic Position") as [col|].
    + destruct (scan_synthetic_column_total col) as [evs ->].
      split; [discriminate|]. intros Hn.
      assert (Some col = None) by (apply Hcol; lia). discriminate.
    + split; [|reflexivity]. intros _.
      assert (length (columns_named "Synthetic Position" (df_columns df)) <> 1)
        by (apply Hcol; reflexivity).
      lia.
  - split; [discriminate|]. intros Hn.
    assert (false = true) by (apply Hhas; lia). discriminate.
Qed.

Lemma scan_position_none (df : dataframe (A:=A)) (position : string) :
  scan_position df position = None <->
  length (columns_named position (df_columns df)) <> 1.
Proof.
  rewrite <- column_none. unfold scan_position.
  destruct (column df position) as [col|].
  - destruct (scan_column_total position col) as [evs ->].
    split; discriminate.
  - split; reflexivity.
Qed.

Lemma scan_positions_none (df : dataframe (A:=A)) (selected_positions : list string) :
  scan_positions df selected_positions = None <->
  exists position,
    In position selected_positions /\
    length (columns_named position (df_columns df)) <> 1.
Proof.
  induction selected_positions as [|p rest IH]; simpl.
  - split; [discriminate | intros (q & [] & _)].
  - destruct (scan_position df p) as [evs|] eqn:Ep.
    + destruct (scan_positions df rest) as [evs'|].
      * split; [discriminate|].
        intros (q & [<-|Hq] & Hl).
        -- apply scan_position_none in Hl. congruence.
        -- destruct IH as [_ IH]. discriminate IH. exists q. split; assumption.
      * split; [|reflexivity]. intros _.
        destruct IH as [IH _]. destruct (IH eq_refl) as (q & Hq & Hl).
        exists q. split; [right; exact Hq | exact Hl].
    + split; [|reflexivity]. intros _. exists p.
      split; [left; reflexivity | apply scan_position_none; exact Ep].
Qed.

(** X12: on exact numbers, and with pandas padding [replace(np.nan)],
    [graph_payoffs] is stopped by an exception before the axis set-up
    exactly when a selected position is not the label of one and only
    one column of the table ([KeyError] with none, [ValueError] with
    several), or the label ['Synthetic Position'] is carried by several
    columns; the indexing of the zero rows never fails. *)
Theorem graph_payoffs_fails_on_column_labels
  {EA : ExactNum A}
  (selected_positions : list string) (S : list A) (payoff_df : dataframe (A:=A)) :
  graph_payoffs selected_positions S payoff_df = None <->
  (exists position,
     In position selected_positions /\
     length (columns_named position (df_columns payoff_df)) <> 1) \/
  1 < length (columns_named "Synthetic Position" (df_columns payoff_df)).
Proof.
  unfold graph_payoffs.
  rewrite <- scan_positions_none, <- scan_synthetic_none.
  destruct (scan_positions payoff_df selected_positions) as [evs|].
  - destruct (scan_synthetic payoff_df) as [evs'|].
    + split; [discriminate | intros [H|H]; discriminate H].
    + split; [right; reflexivity | reflexivity].
  - split; [left; reflexivity | reflexivity].
Qed.

End ScanTotal.

Section ScanSound.
Context {A : Type} {NA : Num A}.

Lemma zero_index_in (col : series (A:=A)) (s : A) :
  In s (zero_index col) -> exists v, In (s, v) col /\ is_zero v = true.
Proof.
  unfold zero_index. intros Hs. apply in_map_iff in Hs.
  destruct Hs as ([s' v] & <- & Hf). apply filter_In in Hf.
  exists v. exact Hf.
Qed.

Lemma first_label_in (idx : list A) (l : A) :
  first_label idx = Some l -> In l idx.
Proof.
  destruct idx as [|x idx]; simpl; intros E; [discriminate|].
  injection E as ->. left. reflexivity.
Qed.

Lemma last_label_in (idx : list A) (l : A) :
  last_label idx = Some l -> In l idx.
Proof.
  unfold last_label. destruct (rev idx) as [|x r] eqn:E; intros H;
    [discriminate|].
  injection H as ->. apply in_rev. rewrite E. left. reflexivity.
Qed.

(** X13: every spot the loop body prints or marks for a position is the
    label of a row of that position's column whose payoff is zero. *)
Theorem scan_column_reports_zero_rows
  (position : string) (col : series (A:=A)) (evs : list event) (e : event) (s : A) :
  scan_column position col = Some evs ->
  In e evs -> In s (event_spots e) ->
  exists v, In (s, v) col /\ is_zero v = true.
Proof.
  intros Hrun He Hs. apply zero_index_in.
  unfold scan_column, report_one in Hrun.
  destruct (Nat.ltb 1 (count_zeros col)).
  - destruct (contains "Call" position).
    + destruct (last_label (zero_index col)) as [l|] eqn:El; [|discriminate].
      injection Hrun as <-. apply last_label_in in El.
      destruct He as [<-|[<-|[]]]; destruct Hs as [<-|[]]; exact El.
    + destruct (contains "Put" position).
      * destruct (first_label (zero_index col)) as [l|] eqn:El; [|discriminate].
        injection Hrun as <-. apply first_label_in in El.
        destruct He as [<-|[<-|[]]]; destruct Hs as [<-|[]]; exact El.
      * injection Hrun as <-. destruct He.
  - destruct (Nat.ltb 0 (count_zeros col)).
    + destruct (first_label (zero_index col)) as [l|] eqn:El; [|discriminate].
      injection Hrun as <-. apply first_label_in in El.
      destruct He as [<-|[<-|[]]].
      * destruct Hs as [<-|[]]. exact El.
      * exact Hs.
    + injection Hrun as <-. destruct He.
Qed.

End ScanSound.

Section ScanSoundExamples.
Local Open Scope Z_scope.

(** The table in which two columns are labelled ['Long Call']. *)
Lemma graph_payoffs_fails_on_column_labels_witness :
  graph_payoffs ["Long Call"%string] [90; 100; 110] repeated_label_df = None <->
  (exists position,
     In position ["Long Call"%string] /\
     length (columns_named position (df_columns repeated_label_df)) <> 1%nat) \/
  (1 < length (columns_named "Synthetic Position"
                 (df_columns repeated_label_df)))%nat.
Proof.
  exact (graph_payoffs_fails_on_column_labels (EA:=ExactNum_Z)
           ["Long Call"%string] [90; 100; 110] repeated_label_df).
Defined.

(** On that table, and on a table without the selected column, the
    scan is stopped. *)
Example repeated_or_missing_label_stops_the_scan :
  graph_payoffs ["Long Call"%string] [90; 100; 110] repeated_label_df = None /\
  graph_payoffs ["Long Call"%string] [90; 100; 110]
    {| df_index := [90; 100; 110];
       df_columns := [("Long Put"%string, [5; -5; -5])] |}
  = None.
Proof. split; reflexivity. Qed.

Lemma scan_column_reports_zero_rows_witness :
  exists v, In (100, v) (combine example_S (fst (Long_Call example_S 100 1 0)))
            /\ is_zero v = true.
Proof.
  exact (scan_column_reports_zero_rows "Long Call"
           (combine example_S (fst (Long_Call example_S 100 1 0)))
           [Print "Long Call" (One 100); mark (One 100)]
           (Print "Long Call" (One 100)) 100
           eq_refl (or_introl eq_refl) (or_introl eq_refl)).
Defined.

End ScanSoundExamples.

(** ** The plateau rule when no plateau is found *)

Section PlateauFallback.
Context {A : Type} {NA : Num A} {EA : ExactNum A}.

Lemma num_eqb_refl (v : A) : num_eqb v v = true.
Proof. apply num_eqb_eq. reflexivity. Qed.

Lemma count_zeros_le_length (col : series (A:=A)) :
  count_zeros col <= length col.
Proof. unfold count_zeros. apply filter_length_le. Qed.

Lemma two_rows_or_more (col : series (A:=A)) :
  2 <= length col ->
  exists r0 mid l v, col = r0 :: mid ++ [(l, v)].
Proof.
  destruct col as [|r0 t]; simpl; intros Hn; [lia|].
  destruct (exists_last (l:=t)) as (mid & [l v] & ->).
  - intros ->. simpl in Hn. lia.
  - exists r0, mid, l, v. reflexivity.
Qed.

Lemma first_valid_index_found (lc : list (A * bool)) (i : nat) (l : A) :
  nth_error lc i = Some (l, true) ->
  exists s, first_valid_index lc = Some s /\ In s (map fst lc).
Proof.
  revert i. induction lc as [|[x b] lc IH]; intros i Hi.
  - destruct i; discriminate Hi.
  - destruct b.
    + exists x. split; [reflexivity | left; reflexivity].
    + destruct i as [|i]; [discriminate Hi|].
      destruct (IH i Hi) as (s & E & Hs).
      exists s. split; [exact E | right; exact Hs].
Qed.

Lemma lagged_labels (col : series (A:=A)) (s : A) :
  In s (map fst (lagged_comparison col)) -> In s (map fst col).
Proof.
  intros Hs. apply in_map_iff in Hs. destruct Hs as ([s' b] & <- & Hin).
  unfold lagged_comparison in Hin. apply in_combine_l in Hin. exact Hin.
Qed.

(** X14: with more than two zero rows in the synthetic column the
    plateau rule always finds a row, so one spot of the column is printed
    and marked (never Python's [None]), whether or not two neighbouring
    rows are equal. *)
Theorem plateau_rule_reports_a_spot (col : series (A:=A)) :
  2 < count_zeros col ->
  exists s,
    In s (map fst col) /\
    scan_synthetic_column col
    = Some [Print "Synthetic Position" (One s); mark_synthetic (One s)].
Proof.
  intros Hn. pose proof (count_zeros_le_length col) as Hlen.
  destruct (two_rows_or_more col) as (r0 & mid & l & v & E); [lia|].
  pose proof (lagged_last_row r0 mid l v) as Hlast.
  rewrite num_eqb_refl, <- E in Hlast.
  destruct (first_valid_index_found _ _ _ Hlast) as (s & Es & Hs).
  exists s. split; [apply lagged_labels; exact Hs|].
  unfold scan_synthetic_column.
  replace (Nat.eqb (count_zeros col) 2) with false
    by (symmetry; apply Nat.eqb_neq; lia).
  replace (Nat.ltb 1 (count_zeros col)) with true
    by (symmetry; apply Nat.ltb_lt; lia).
  rewrite Es. reflexivity.
Qed.

(** X15: with more than two zero rows and no row equal to the row under
    it, the spot reported for the synthetic position is the last spot of
    the grid, whatever the payoff there is. *)
Theorem no_plateau_reports_last (pre : series (A:=A)) (l v : A) :
  2 < count_zeros (pre ++ [(l, v)]) ->
  (forall j a b,
     nth_error (pre ++ [(l, v)]) j = Some a ->
     nth_error (pre ++ [(l, v)]) (S j) = Some b ->
     num_eqb (snd a) (snd b) = false) ->
  scan_synthetic_column (pre ++ [(l, v)])
  = Some [Print "Synthetic Position" (One l); mark_synthetic (One l)].
Proof.
  intros Hn Hflat.
  pose proof (count_zeros_le_length (pre ++ [(l, v)])) as Hlen.
  rewrite length_app in Hlen. cbn [length] in Hlen.
  destruct pre as [|r0 mid]; [cbn [length] in Hlen; lia|].
  change ((r0 :: mid) ++ [(l, v)]) with (r0 :: mid ++ [(l, v)]) in *.
  set (col := r0 :: mid ++ [(l, v)]) in *.
  pose proof (lagged_last_row r0 mid l v) as Hlast.
  fold col in Hlast. rewrite num_eqb_refl in Hlast.
  unfold scan_synthetic_column.
  replace (Nat.eqb (count_zeros col) 2) with false
    by (symmetry; apply Nat.eqb_neq; lia).
  replace (Nat.ltb 1 (count_zeros col)) with true
    by (symmetry; apply Nat.ltb_lt; lia).
  rewrite (first_valid_index_at _ (S (length mid)) l Hlast); [reflexivity|].
  intros j x b Hj E.
  assert (Hcol : length col = S (S (length mid))).
  { unfold col. cbn [length]. rewrite length_app. cbn [length]. lia. }
  destruct (nth_error col j) as [[sj vj]|] eqn:Ej.
  2:{ apply nth_error_None in Ej. lia. }
  destruct (nth_error col (S j)) as [[sn vn]|] eqn:En.
  2:{ apply nth_error_None in En. lia. }
  rewrite (nth_error_lagged _ _ _ _ _ _ Ej En) in E.
  injection E as _ <-.
  apply (Hflat j (sj, vj) (sn, vn) Ej En).
Qed.

End PlateauFallback.

Section PlateauExamples.
Local Open Scope Z_scope.

Lemma plateau_rule_reports_a_spot_witness :
  exists s,
    In s (map fst [(80, 0); (90, 1); (100, 0); (110, 3); (120, 0)]) /\
    scan_synthetic_column [(80, 0); (90, 1); (100, 0); (110, 3); (120, 0)]
    = Some [Print "Synthetic Position" (One s); mark_synthetic (One s)].
Proof.
  exact (plateau_rule_reports_a_spot
           [(80, 0); (90, 1); (100, 0); (110, 3); (120, 0)] (le_n 3)).
Defined.

Lemma no_plateau_reports_last_witness :
  scan_synthetic_column ([(80, 0); (90, 1); (100, 0); (110, 3)] ++ [(120, 0)])
  = Some [Print "Synthetic Position" (One 120); mark_synthetic (One 120)].
Proof.
  apply (no_plateau_reports_last [(80, 0); (90, 1); (100, 0); (110, 3)] 120 0).
  - exact (le_n 3).
  - intros j a b Ea Eb.
    do 4 (destruct j as [|j];
          [injection Ea as <-; injection Eb as <-; reflexivity|]).
    destruct j; discriminate Eb.
Defined.

End PlateauExamples.

(** ** The scan on the columns the payoff functions compute *)

Section ScanOfPayoffs.
Local Open Scope Z_scope.

(** The loop body, by the list of the zero rows' labels. *)
Lemma scan_column_by_zero_index (position : string) (col : series (A:=Z)) :
  scan_column position col
  = match zero_index col with
    | [] => Some []
    | [s] => Some [Print position (One s); mark (Many [s])]
    | s :: rest =>
        if contains "Call" position then
          report_one position (last_label (s :: rest))
        else if contains "Put" position then
          Some [Print position (One s); mark (One s)]
        else Some []
    end.
Proof.
  unfold scan_column. rewrite <- zero_index_length.
  destruct (zero_index col) as [|s [|s' rest]]; reflexivity.
Qed.

(** The zero rows of a column computed spot by spot. *)
Lemma zero_index_of_map (f : Z -> Z) (S : list Z) :
  zero_index (combine S (map f S)) = filter (fun s => f s =? 0) S.
Proof.
  unfold zero_index, is_zero. znum. induction S as [|s S IH]; simpl.
  - reflexivity.
  - destruct (f s =? 0); simpl; rewrite IH; reflexivity.
Qed.

Lemma filter_nothing (g : Z -> bool) (S : list Z) :
  (forall s, In s S -> g s = false) -> filter g S = [].
Proof.
  induction S as [|s S IH]; simpl; intros Hg.
  - reflexivity.
  - rewrite (Hg s (or_introl eq_refl)). apply IH.
    intros x Hx. apply Hg. right. exact Hx.
Qed.

Lemma filter_everything (g : Z -> bool) (S : list Z) :
  (forall s, In s S -> g s = true) -> filter g S = S.
Proof.
  induction S as [|s S IH]; simpl; intros Hg.
  - reflexivity.
  - rewrite (Hg s (or_introl eq_refl)). f_equal. apply IH.
    intros x Hx. apply Hg. right. exact Hx.
Qed.

(** A grid that holds the only root of [f] once. *)
Lemma filter_single_root (f : Z -> Z) (root : Z) (pre post : list Z) :
  (forall s, f s = 0 <-> s = root) ->
  ~ In root pre -> ~ In root post ->
  filter (fun s => f s =? 0) (pre ++ root :: post) = [root].
Proof.
  intros Hroot Hpre Hpost.
  assert (Hoff : forall S, ~ In root S -> filter (fun s => f s =? 0) S = []).
  { intros S HS. apply filter_nothing. intros s Hs.
    apply Z.eqb_neq. intros E. apply Hroot in E. subst s. exact (HS Hs). }
  rewrite filter_app. simpl.
  rewrite (Hoff pre Hpre), (Hoff post Hpost).
  replace (f root =? 0) with true
    by (symmetry; apply Z.eqb_eq, Hroot; reflexivity).
  reflexivity.
Qed.

(** X16: a bond of par value other than zero never gets a break-even:
    for its column the loop body prints and marks nothing, whatever the
    position is called. *)
Theorem bond_has_no_break_even (position : string) (S : list Z) (X : Z) :
  X <> 0 ->
  scan_column position (combine S (Long_ZCB S X)) = Some [] /\
  scan_column position (combine S (Short_ZCB S X)) = Some [].
Proof.
  intros HX. unfold Long_ZCB, Short_ZCB.
  rewrite <- (map_const (fun _ : Z => X) X S (fun _ => eq_refl)).
  rewrite <- (map_const (fun _ : Z => (- X)%num) (- X)%num S (fun _ => eq_refl)).
  rewrite !scan_column_by_zero_index, !zero_index_of_map. znum.
  rewrite !filter_nothing; [split; reflexivity| |];
    intros s _; apply Z.eqb_neq; lia.
Qed.

Lemma bond_has_no_break_even_witness :
  scan_column "Long ZCB" (combine example_S (Long_ZCB example_S 100)) = Some [] /\
  scan_column "Long ZCB" (combine example_S (Short_ZCB example_S 100)) = Some [].
Proof.
  apply (bond_has_no_break_even "Long ZCB" example_S 100). lia.
Defined.

(** X17: the scan finds a break-even only on the grid.  With a positive
    premium and a quantity other than zero, when no spot of the grid
    equals the break-even price the call (put) functions return, nothing
    is printed or marked for the column of a long or short call (put). *)
Theorem off_grid_break_even_is_missed (position : string) (S : list Z) (X N premium : Z) :
  0 < premium -> N <> 0 ->
  (~ In (snd (Long_Call S X N premium)) S ->
   scan_column position (combine S (fst (Long_Call S X N premium))) = Some [] /\
   scan_column position (combine S (fst (Short_Call S X N premium))) = Some []) /\
  (~ In (snd (Long_Put S X N premium)) S ->
   scan_column position (combine S (fst (Long_Put S X N premium))) = Some [] /\
   scan_column position (combine S (fst (Short_Put S X N premium))) = Some []).
Proof.
  intros Hp HN. unfold Long_Call, Short_Call, Long_Put, Short_Put.
  cbn [fst snd]. znum.
  split; intros Hoff; rewrite !scan_column_by_zero_index, !zero_index_of_map;
    rewrite !filter_nothing; try (split; reflexivity);
    intros s Hs; apply Z.eqb_neq; intros E.
  - apply Hoff. replace (X + premium) with s; [exact Hs|].
    apply (call_payoff_zero_iff X N premium s Hp HN). lia.
  - apply Hoff. replace (X + premium) with s; [exact Hs|].
    apply (call_payoff_zero_iff X N premium s Hp HN). exact E.
  - apply Hoff. replace (X - premium) with s; [exact Hs|].
    apply (put_payoff_zero_iff X N premium s Hp HN). lia.
  - apply Hoff. replace (X - premium) with s; [exact Hs|].
    apply (put_payoff_zero_iff X N premium s Hp HN). exact E.
Qed.

Lemma off_grid_break_even_is_missed_witness :
  (scan_column "Long Call" (combine example_S (fst (Long_Call example_S 100 1 7))) = Some [] /\
   scan_column "Long Call" (combine example_S (fst (Short_Call example_S 100 1 7))) = Some []) /\
  (scan_column "Long Call" (combine example_S (fst (Long_Put example_S 100 1 7))) = Some [] /\
   scan_column "Long Call" (combine example_S (fst (Short_Put example_S 100 1 7))) = Some []).
Proof.
  destruct (off_grid_break_even_is_missed "Long Call" example_S 100 1 7)
    as [Hc Hp]; [lia | lia |].
  split; [apply Hc | apply Hp]; simpl; lia.
Defined.

(** X18: the scan agrees with the payoff functions on the grid.  With a
    positive premium and a quantity other than zero, when the grid holds
    the break-even price returned by [Long_Call] ([Long_Put]) exactly
    once, that price is the spot printed and marked for the column of
    payoffs the function returns, whatever the position is called. *)
Theorem on_grid_break_even_is_found
  (position : string) (pre post : list Z) (X N premium : Z) :
  0 < premium -> N <> 0 ->
  (~ In (X + premium) pre -> ~ In (X + premium) post ->
   let S := pre ++ (X + premium) :: post in
   scan_column position (combine S (fst (Long_Call S X N premium)))
   = Some [Print position (One (snd (Long_Call S X N premium)));
           mark (Many [snd (Long_Call S X N premium)])]) /\
  (~ In (X - premium) pre -> ~ In (X - premium) post ->
   let S := pre ++ (X - premium) :: post in
   scan_column position (combine S (fst (Long_Put S X N premium)))
   = Some [Print position (One (snd (Long_Put S X N premium)));
           mark (Many [snd (Long_Put S X N premium)])]).
Proof.
  intros Hp HN. unfold Long_Call, Long_Put. cbn [fst snd]. znum.
  split; intros Hpre Hpost;
    rewrite scan_column_by_zero_index, zero_index_of_map.
  - rewrite (filter_single_root _ (X + premium)); [reflexivity | | exact Hpre | exact Hpost].
    intros s. apply call_payoff_zero_iff; assumption.
  - rewrite (filter_single_root _ (X - premium)); [reflexivity | | exact Hpre | exact Hpost].
    intros s. apply put_payoff_zero_iff; assumption.
Qed.

Lemma on_grid_break_even_is_found_witness :
  scan_column "Long Call"
    (combine ([80; 90; 100] ++ (100 + 10) :: [120])
             (fst (Long_Call ([80; 90; 100] ++ (100 + 10) :: [120]) 100 1 10)))
  = Some [Print "Long Call"
            (One (snd (Long_Call ([80; 90; 100] ++ (100 + 10) :: [120]) 100 1 10)));
          mark (Many [snd (Long_Call ([80; 90; 100] ++ (100 + 10) :: [120]) 100 1 10)])] /\
  scan_column "Long Put"
    (combine ([80] ++ (100 - 10) :: [100; 110; 120])
             (fst (Long_Put ([80] ++ (100 - 10) :: [100; 110; 120]) 100 1 10)))
  = Some [Print "Long Put"
            (One (snd (Long_Put ([80] ++ (100 - 10) :: [100; 110; 120]) 100 1 10)));
          mark (Many [snd (Long_Put ([80] ++ (100 - 10) :: [100; 110; 120]) 100 1 10)])].
Proof.
  split.
  - refine (proj1 (on_grid_break_even_is_found "Long Call" [80; 90; 100] [120]
                     100 1 10 _ _) _ _); simpl; lia.
  - refine (proj2 (on_grid_break_even_is_found "Long Put" [80] [100; 110; 120]
                     100 1 10 _ _) _ _); simpl; lia.
Defined.

(** X19: the tie-break at premium zero.  On a grid that holds the strike
    [X] between spots that are not above it and spots that are above it,
    a call with premium 0 and a quantity other than zero has its payoff
    zero at every spot up to the strike; for a position named with
    ['Call'] the spot reported is the strike, the break-even price
    [Long_Call] returns.  Likewise a put with premium 0 on a grid that
    holds the strike between spots below it and spots that are not below
    it, for a position named with ['Put'] and not with ['Call']. *)
Theorem premium_zero_reports_strike
  (position : string) (below above : list Z) (X N : Z) :
  N <> 0 ->
  let S := below ++ X :: above in
  (below <> [] ->
   Forall (fun s => s <= X) below -> Forall (fun s => X < s) above ->
   contains "Call" position = true ->
   scan_column position (combine S (fst (Long_Call S X N 0)))
   = Some [Print position (One X); mark (One X)] /\
   snd (Long_Call S X N 0) = X) /\
  (above <> [] ->
   Forall (fun s => s < X) below -> Forall (fun s => X <= s) above ->
   contains "Call" position = false ->
   contains "Put" position = true ->
   scan_column position (combine S (fst (Long_Put S X N 0)))
   = Some [Print position (One X); mark (One X)] /\
   snd (Long_Put S X N 0) = X).
Proof.
  intros HN S. unfold S, Long_Call, Long_Put. cbn [fst snd]. znum.
  split.
  - intros Hne Hbelow Habove Hcall.
    split; [|lia].
    rewrite scan_column_by_zero_index, zero_index_of_map.
    rewrite filter_app. cbn [filter].
    rewrite (filter_everything _ below), (filter_nothing _ above).
    + replace ((Z.max 0 (X - X) - 0) * N =? 0) with true
        by (symmetry; apply Z.eqb_eq; replace (Z.max 0 (X - X)) with 0 by lia; ring).
      destruct below as [|b below]; [contradiction|].
      cbn [app]. rewrite Hcall.
      change (b :: below ++ [X]) with ((b :: below) ++ [X]).
      rewrite last_label_snoc. destruct below; reflexivity.
    + intros s Hs. apply Z.eqb_neq.
      rewrite Forall_forall in Habove. specialize (Habove s Hs). nia.
    + intros s Hs. apply Z.eqb_eq.
      rewrite Forall_forall in Hbelow. specialize (Hbelow s Hs).
      replace (Z.max 0 (s - X)) with 0 by lia. ring.
  - intros Hne Hbelow Habove Hcall Hput.
    split; [|lia].
    rewrite scan_column_by_zero_index, zero_index_of_map.
    rewrite filter_app. cbn [filter].
    rewrite (filter_nothing _ below), (filter_everything _ above).
    + replace ((Z.max 0 (X - X) - 0) * N =? 0) with true
        by (symmetry; apply Z.eqb_eq; replace (Z.max 0 (X - X)) with 0 by lia; ring).
      destruct above as [|a above]; [contradiction|].
      cbn [app]. rewrite Hcall, Hput. reflexivity.
    + intros s Hs. apply Z.eqb_eq.
      rewrite Forall_forall in Habove. specialize (Habove s Hs).
      replace (Z.max 0 (X - s)) with 0 by lia. ring.
    + intros s Hs. apply Z.eqb_neq.
      rewrite Forall_forall in Hbelow. specialize (Hbelow s Hs). nia.
Qed.

Lemma premium_zero_reports_strike_witness :
  (scan_column "Long Call" (combine example_S (fst (Long_Call example_S 100 1 0)))
   = Some [Print "Long Call" (One 100); mark (One 100)] /\
   snd (Long_Call example_S 100 1 0) = 100) /\
  (scan_column "Long Put" (combine example_S (fst (Long_Put example_S 100 1 0)))
   = Some [Print "Long Put" (One 100); mark (One 100)] /\
   snd (Long_Put example_S 100 1 0) = 100).
Proof.
  split.
  - refine (proj1 (premium_zero_reports_strike "Long Call" [80; 90] [110; 120]
                     100 1 _) _ _ _ _).
    + lia.
    + discriminate.
    + repeat constructor; lia.
    + repeat constructor; lia.
    + reflexivity.
  - refine (proj2 (premium_zero_reports_strike "Long Put" [80; 90] [110; 120]
                     100 1 _) _ _ _ _ _).
    + lia.
    + discriminate.
    + repeat constructor; lia.
    + repeat constructor; lia.
    + reflexivity.
    + reflexivity.
Defined.

End ScanOfPayoffs.

(** ** The curves drawn *)

Section PlotOrder.
Context {A : Type} {NA : Num A}.

Lemma plot_labels_app (a b : list (event (A:=A))) :
  plot_labels (a ++ b) = plot_labels a ++ plot_labels b.
Proof.
  induction a as [|e a IH]; simpl.
  - reflexivity.
  - destruct (plot_label e); simpl; rewrite IH; reflexivity.
Qed.

Lemma scan_column_plots_nothing (position : string) (col : series (A:=A))
  (evs : list event) :
  scan_column position col = Some evs -> plot_labels evs = [].
Proof.
  unfold scan_column, report_one.
  destruct (Nat.ltb 1 (count_zeros col)).
  - destruct (contains "Call" position).
    + destruct (last_label (zero_index col)); intros E; [|discriminate].
      injection E as <-. reflexivity.
    + destruct (contains "Put" position).
      * destruct (first_label (zero_index col)); intros E; [|discriminate].
        injection E as <-. reflexivity.
      * intros E. injection E as <-. reflexivity.
  - destruct (Nat.ltb 0 (count_zeros col)).
    + destruct (first_label (zero_index col)); intros E; [|discriminate].
      injection E as <-. reflexivity.
    + intros E. injection E as <-. reflexivity.
Qed.

Lemma marks_plot_nothing (l : list A) :
  plot_labels (map (fun BEP_PF => mark_synthetic (One BEP_PF)) l) = [].
Proof. induction l as [|x l IH]; simpl; [reflexivity | exact IH]. Qed.

Lemma scan_synthetic_column_plots_nothing (col : series (A:=A)) (evs : list event) :
  scan_synthetic_column col = Some evs -> plot_labels evs = [].
Proof.
  unfold scan_synthetic_column.
  destruct (Nat.eqb (count_zeros col) 2).
  - intros E. injection E as <-. simpl. apply marks_plot_nothing.
  - destruct (Nat.ltb 1 (count_zeros col)).
    + intros E. injection E as <-. reflexivity.
    + destruct (Nat.ltb 0 (count_zeros col)).
      * destruct (first_label (zero_index col)); intros E; [|discriminate].
        injection E as <-. reflexivity.
      * intros E. injection E as <-. reflexivity.
Qed.

Lemma scan_positions_plots (df : dataframe (A:=A)) (selected_positions : list string)
  (evs : list event) :
  scan_positions df selected_positions = Some evs ->
  plot_labels evs = selected_positions.
Proof.
  revert evs. induction selected_positions as [|p rest IH]; simpl; intros evs E.
  - injection E as <-. reflexivity.
  - unfold scan_position in E.
    destruct (column df p) as [col|]; [|discriminate].
    destruct (scan_column p col) as [e1|] eqn:E1; [|discriminate].
    destruct (scan_positions df rest) as [e2|]; [|discriminate].
    injection E as <-. simpl. rewrite plot_labels_app.
    rewrite (scan_column_plots_nothing _ _ _ E1), (IH e2 eq_refl).
    reflexivity.
Qed.

(** X20: whenever [graph_payoffs] reaches the axis set-up, the curves it
    has drawn are those of the selected positions, once each and in the
    order given, followed by the synthetic curve when the table has that
    column. *)
Theorem curves_follow_selection
  (selected_positions : list string) (S : list A) (payoff_df : dataframe (A:=A))
  (evs : list event) :
  graph_payoffs selected_positions S payoff_df = Some evs ->
  plot_labels evs
  = selected_positions ++
    (if has_column payoff_df "Synthetic Position"
     then ["Synthetic Position"%string] else []).
Proof.
  unfold graph_payoffs, scan_synthetic.
  destruct (scan_positions payoff_df selected_positions) as [e1|] eqn:E1;
    [|discriminate].
  apply scan_positions_plots in E1.
  destruct (has_column payoff_df "Synthetic Position").
  - destruct (column payoff_df "Synthetic Position") as [col|]; [|discriminate].
    destruct (scan_synthetic_column col) as [e2|] eqn:E2; [|discriminate].
    intros E. injection E as <-. rewrite plot_labels_app, E1. simpl.
    rewrite (scan_synthetic_column_plots_nothing _ _ E2). reflexivity.
  - intros E. injection E as <-. rewrite plot_labels_app, E1. reflexivity.
Qed.

End PlotOrder.

(** ** The substring test *)

Section Substring.
Local Open Scope string_scope.

Lemma prefix_append (p s : string) :
  prefix p s = true <-> exists post, s = p ++ post.
Proof.
  revert s. induction p as [|c p IH]; intros s.
  - split; [intros _; exists s; reflexivity | intros _; destruct s; reflexivity].
  - destruct s as [|c' s]; simpl.
    + split; [discriminate | intros [post E]; discriminate E].
    + destruct (Ascii.ascii_dec c c') as [<-|Hc].
      * rewrite IH. split; intros [post E]; exists post.
        -- rewrite E. reflexivity.
        -- injection E as E. exact E.
      * split; [discriminate|]. intros [post E]. injection E as E _.
        congruence.
Qed.

(** X21: the test the loop makes on a position name, ['Call' in
    position], holds exactly when the name is some text, then the word,
    then some text; the test is sensitive to case and to nothing else. *)
Theorem contains_is_substring (pat s : string) :
  contains pat s = true <-> exists pre post, s = pre ++ pat ++ post.
Proof.
  induction s as [|c s IH]; cbn [contains].
  - rewrite orb_false_r, prefix_append. split.
    + intros [post E]. exists "", post. exact E.
    + intros (pre & post & E). destruct pre as [|c pre]; [|discriminate E].
      exists post. exact E.
  - rewrite orb_true_iff, prefix_append, IH. split.
    + intros [[post E]|(pre & post & E)].
      * exists "", post. exact E.
      * exists (String c pre), post. simpl. rewrite E. reflexivity.
    + intros (pre & post & E). destruct pre as [|c' pre].
      * left. exists post. exact E.
      * right. injection E as _ E. exists pre, post. exact E.
Qed.

End Substring.

Section PlotOrderExamples.
Local Open Scope Z_scope.
Local Open Scope string_scope.

Lemma curves_follow_selection_witness :
  plot_labels
    [Plot "Long Stock" [(90, -10); (100, 0); (110, 10)] false;
     Print "Long Stock" (One 100); mark (Many [100]);
     Plot "Synthetic Position" [(90, -10); (100, 0); (110, 10)] true;
     Print "Synthetic Position" (One 100); mark_synthetic (Many [100])]
  = (["Long Stock"] ++ ["Synthetic Position"])%list.
Proof.
  exact (curves_follow_selection ["Long Stock"] [90; 100; 110]
           {| df_index := [90; 100; 110];
              df_columns := [("Long Stock", [-10; 0; 10]);
                             ("Synthetic Position", [-10; 0; 10])] |}
           _ eq_refl).
Defined.

End PlotOrderExamples.

(** ** Axis limits *)

Section LimitFacts.
Local Open Scope Z_scope.

Lemma fold_max_spec (rest : list Z) (s : Z) :
  (fold_left Z.max rest s = s \/ In (fold_left Z.max rest s) rest) /\
  s <= fold_left Z.max rest s /\
  Forall (fun x => x <= fold_left Z.max rest s) rest.
Proof.
  revert s. induction rest as [|x rest IH]; intros s; simpl.
  - repeat split; [left; reflexivity | lia | constructor].
  - destruct (IH (Z.max s x)) as (Hin & Hle & Hall).
    repeat split.
    + destruct Hin as [E|Hin]; [|right; right; exact Hin].
      destruct (Z.max_spec s x) as [[_ Em]|[_ Em]].
      * right. left. rewrite E. symmetry. exact Em.
      * left. rewrite E. exact Em.
    + lia.
    + constructor; [lia | exact Hall].
Qed.

Lemma py_max_spec (S : list Z) (m : Z) :
  py_max S = Some m -> In m S /\ Forall (fun x => x <= m) S.
Proof.
  destruct S as [|s rest]; simpl; intros E; [discriminate|].
  injection E as <-.
  destruct (fold_max_spec rest s) as (Hin & Hle & Hall).
  split.
  - destruct Hin as [E|Hin]; [left; symmetry; exact E | right; exact Hin].
  - constructor; assumption.
Qed.

Lemma nan_max_spec (l : list (option Z)) :
  match nan_max l with
  | Some y => In (Some y) l /\ forall v, In (Some v) l -> v <= y
  | None => forall o, In o l -> o = None
  end.
Proof.
  induction l as [|[v|] l IH]; simpl.
  - intros o [].
  - destruct (nan_max l) as [w|].
    + destruct IH as [Hin Hle]. split.
      * destruct (Z.max_spec v w) as [[_ ->]|[_ ->]];
          [right; exact Hin | left; reflexivity].
      * intros u [E|Hu]; [injection E as <-; lia|].
        specialize (Hle u Hu). lia.
    + split; [left; reflexivity|].
      intros u [E|Hu]; [injection E as <-; lia|].
      specialize (IH _ Hu). discriminate IH.
  - destruct (nan_max l) as [w|].
    + destruct IH as [Hin Hle]. split; [right; exact Hin|].
      intros u [E|Hu]; [discriminate E | exact (Hle u Hu)].
    + intros o [<-|Ho]; [reflexivity | exact (IH o Ho)].
Qed.

(** X22: the scale of the chart.  [max(S)] raises on an empty grid and
    on no other.  Otherwise the horizontal axis runs from 0 to a spot of
    the grid that no spot exceeds; the vertical axis runs from [-yscale]
    to [yscale], where [yscale] is a payoff of the table that no payoff
    of any column exceeds, and [yscale] is NaN only when no column has a
    row. *)
Theorem graph_limits_cover_the_data (S : list Z) (payoff_df : dataframe (A:=Z)) :
  match graph_limits S payoff_df with
  | None => S = []
  | Some ((xmin, xmax), ylim) =>
      xmin = 0 /\ In xmax S /\ Forall (fun s => s <= xmax) S /\
      match ylim with
      | Some (ymin, ymax) =>
          ymin = - ymax /\
          (exists name vals,
             In (name, vals) (df_columns payoff_df) /\
             In ymax (map snd (combine (df_index payoff_df) vals))) /\
          (forall name vals v,
             In (name, vals) (df_columns payoff_df) ->
             In v (map snd (combine (df_index payoff_df) vals)) ->
             v <= ymax)
      | None =>
          forall name vals,
            In (name, vals) (df_columns payoff_df) ->
            combine (df_index payoff_df) vals = []
      end
  end.
Proof.
  unfold graph_limits.
  destruct (py_max S) as [xmax|] eqn:Ex.
  2:{ destruct S; [reflexivity | discriminate Ex]. }
  destruct (py_max_spec S xmax Ex) as [Hin Hall].
  split; [reflexivity|]. split; [exact Hin|]. split; [exact Hall|].
  pose proof (nan_max_spec (column_maxima payoff_df)) as Hy.
  unfold column_maxima in *.
  destruct (nan_max _) as [y|].
  - destruct Hy as [Hiny Hley]. split; [reflexivity|]. split.
    + apply in_map_iff in Hiny. destruct Hiny as ([name vals] & E & Hc).
      exists name, vals. split; [exact Hc|].
      apply py_max_spec in E. exact (proj1 E).
    + intros name vals v Hc Hv.
      destruct (py_max (map snd (combine (df_index payoff_df) vals))) as [m|] eqn:Em.
      * destruct (py_max_spec _ _ Em) as [_ Hm].
        rewrite Forall_forall in Hm. specialize (Hm v Hv).
        assert (m <= y); [|lia].
        apply Hley. apply in_map_iff. exists (name, vals).
        split; [exact Em | exact Hc].
      * destruct (map snd (combine (df_index payoff_df) vals)); [destruct Hv | discriminate Em].
  - intros name vals Hc.
    assert (E : py_max (map snd (combine (df_index payoff_df) vals)) = None).
    { apply Hy. apply in_map_iff. exists (name, vals). split; [reflexivity | exact Hc]. }
    destruct (combine (df_index payoff_df) vals); [reflexivity | discriminate E].
Qed.

End LimitFacts.

(** ** Payoffs along the grid *)

Section PayoffMonotone.
Local Open Scope Z_scope.

Lemma map_keeps_order (R R' : Z -> Z -> Prop) (f : Z -> Z) (S : list Z) :
  (forall a b, R a b -> R' (f a) (f b)) ->
  StronglySorted R S -> StronglySorted R' (map f S).
Proof.
  intros Hf HS. induction HS as [|a l Hl IH Ha]; simpl; constructor.
  - exact IH.
  - apply Forall_map. apply (Forall_impl _ (Hf a) Ha).
Qed.

(** X23: on a grid in ascending order and for a quantity that is not
    negative, the payoffs of a long call and of a short put come out in
    ascending order, and those of a short call and of a long put in
    descending order. *)
Theorem option_payoffs_follow_the_grid (S : list Z) (X N premium : Z) :
  0 <= N -> StronglySorted Z.le S ->
  StronglySorted Z.le (fst (Long_Call S X N premium)) /\
  StronglySorted Z.le (fst (Short_Put S X N premium)) /\
  StronglySorted Z.ge (fst (Short_Call S X N premium)) /\
  StronglySorted Z.ge (fst (Long_Put S X N premium)).
Proof.
  intros HN HS.
  unfold Long_Call, Short_Put, Short_Call, Long_Put.
  cbn [fst].
  repeat split; apply (map_keeps_order Z.le); try exact HS;
    intros a b Hab; znum; try apply Z.le_ge;
    apply Z.mul_le_mono_nonneg_r; lia.
Qed.

Lemma option_payoffs_follow_the_grid_witness :
  StronglySorted Z.le (fst (Long_Call example_S 100 1 5)) /\
  StronglySorted Z.le (fst (Short_Put example_S 100 1 5)) /\
  StronglySorted Z.ge (fst (Short_Call example_S 100 1 5)) /\
  StronglySorted Z.ge (fst (Long_Put example_S 100 1 5)).
Proof.
  apply (option_payoffs_follow_the_grid example_S 100 1 5); [lia|].
  repeat (constructor; [|repeat (constructor; [lia|]); constructor]).
  constructor.
Defined.

End PayoffMonotone.
